(** * Gemini-Structurizer: the batch dispatch core

    A shallow embedding of the dispatch, retry and aggregation logic of
    [batch_clean.py], [gemini_service.py] and [config.py].

    - Python [int] is [Z]; the float [RETRY_DELAY] and the backoff delays
      are exact rationals [Q] (scaling a binary float by a power of two is
      exact while the product stays in range).
    - A parsed JSON value / Python object is a [json]; [None] is [JNull].
    - A raised exception is the [Raise] case of [result]; code that also
      acquires the semaphore, calls the API or sleeps runs in the monad
      [M], which records these events in program order.
    - The Gemini API is an oracle: for every attempt it either raises or
      delivers a text that [json.loads] parses or rejects. *)

From Stdlib Require Import ZArith QArith Lia Permutation Sorted.
From stdpp Require Import base list strings gmap.

Set Warnings "-register-all".
Set Default Proof Using "Type".

Open Scope Z_scope.

(** ** Python values *)

Inductive json : Type :=
  | JNull
  | JBool (b : bool)
  | JNum (q : Q)
  | JStr (s : string)
  | JArr (l : list json)
  | JObj (d : gmap string json).

(** [bool(x)] *)
Definition truthy (x : json) : bool :=
  match x with
  | JNull => false
  | JBool b => b
  | JNum q => negb (Qnum q =? 0)
  | JStr s => negb (String.eqb s "")
  | JArr l => negb (Nat.eqb (length l) 0)
  | JObj d => negb (Nat.eqb (size d) 0)
  end.

(** The declared element type [Optional[dict]] of a cleaning result. *)
Definition optional_dict (x : json) : bool :=
  match x with
  | JNull | JObj _ => true
  | _ => false
  end.

(** A dict with at least one entry: the results that count as cleaned. *)
Definition nonempty_dict (x : json) : bool :=
  match x with
  | JObj d => negb (Nat.eqb (size d) 0)
  | _ => false
  end.

(** ** Exceptions *)

Inductive exn : Type :=
  | ValueError
  | TypeError
  | ApiException (msg : string).

(** [str(e)] *)
Definition str (e : exn) : string :=
  match e with
  | ValueError => "range() arg 3 must not be zero"
  | TypeError => "TypeError"
  | ApiException msg => msg
  end.

Inductive result (A : Type) : Type :=
  | Ok (a : A)
  | Raise (e : exn).
Arguments Ok {A} a.
Arguments Raise {A} e.

#[global] Instance result_ret : MRet result := fun A a => Ok a.

#[global] Instance result_bind : MBind result := fun A B f m =>
  match m with
  | Ok a => f a
  | Raise e => Raise e
  end.

(** [x[k] = v]: only a dict accepts a string key. *)
Definition setitem (x : json) (k : string) (v : json) : result json :=
  match x with
  | JObj d => Ok (JObj (<[k := v]> d))
  | _ => Raise TypeError
  end.

(** ** Events and the event-recording monad *)

Inductive event : Type :=
  | EvAcquire                 (* entering [async with self.semaphore] *)
  | EvCall (attempt : Z)      (* one [_call_api] invocation *)
  | EvSleep (delay : Q)       (* [asyncio.sleep(delay)] *)
  | EvRelease.                (* leaving [async with self.semaphore] *)

Definition trace : Type := list event.

Definition M (A : Type) : Type := (result A * trace)%type.

#[global] Instance M_ret : MRet M := fun A a => (Ok a, []).

#[global] Instance M_bind : MBind M := fun A B f m =>
  match m with
  | (Ok a, t) => let '(r, t') := f a in (r, t ++ t')
  | (Raise e, t) => (Raise e, t)
  end.

Definition emit (ev : event) : M unit := (Ok tt, [ev]).

Definition lift {A} (r : result A) : M A := (r, []).

(** [try: m  except Exception as e: h e] *)
Definition try_except {A} (m : M A) (h : exn → M A) : M A :=
  match m with
  | (Ok a, t) => (Ok a, t)
  | (Raise e, t) => let '(r, t') := h e in (r, t ++ t')
  end.

(** [async with self.semaphore: m]: the slot is taken on entry and given
    back on exit, also when [m] raises. *)
Definition async_with_semaphore {A} (m : M A) : M A :=
  let '(r, t) := m in (r, EvAcquire :: t ++ [EvRelease]).

(** ** config.py *)

Record config : Type := Config {
  MAX_CONCURRENT_REQUESTS : Z;
  BATCH_SIZE : Z;
  MAX_RETRIES : Z;
  RETRY_DELAY : Q
}.

Definition config_py : config :=
  {| MAX_CONCURRENT_REQUESTS := 20;
     BATCH_SIZE := 20;
     MAX_RETRIES := 5;
     RETRY_DELAY := 2 |}.

(** ** Python built-ins used by the partitioner *)

(** [len(range(start, stop, step))] as CPython computes it. *)
Definition range_length (start stop step : Z) : Z :=
  if 0 <? step then
    if start <? stop then (stop - start - 1) / step + 1 else 0
  else
    if stop <? start then (start - stop - 1) / (- step) + 1 else 0.

(** [range(start, stop, step)]; a zero step is a [ValueError]. *)
Definition range (start stop step : Z) : result (list Z) :=
  if step =? 0 then Raise ValueError
  else Ok (map (fun k : nat => start + Z.of_nat k * step)
               (seq 0 (Z.to_nat (range_length start stop step)))).

(** Clamp a slice bound: negative bounds count from the end. *)
Definition slice_index {A} (l : list A) (i : Z) : nat :=
  let n := Z.of_nat (length l) in
  Z.to_nat (if i <? 0 then Z.max 0 (i + n) else Z.min i n).

(** [l[i:j]] *)
Definition slice {A} (l : list A) (i j : Z) : list A :=
  take (slice_index l j - slice_index l i) (drop (slice_index l i) l).

(** ** batch_clean.py, line 82: the partitioner

    [[accounts[i:i+B] for i in range(0, len(accounts), B)]] *)
Definition partition (cfg : config) (accounts : list string)
  : result (list (list string)) :=
  starts ← range 0 (Z.of_nat (length accounts)) (BATCH_SIZE cfg);
  mret (map (fun i => slice accounts i (i + BATCH_SIZE cfg)) starts).

(** [range(stop)] for the retry loop. *)
Definition range1 (stop : Z) : list Z :=
  map Z.of_nat (seq 0 (Z.to_nat stop)).

(** ** gemini_service.py *)

(** What one [generate_content] round trip delivers: an exception (also
    the [AttributeError] of a response without text), or a text, given by
    what [json.loads] makes of it ([None]: [JSONDecodeError]). *)
Inductive response : Type :=
  | ApiRaises (msg : string)
  | ApiText (parsed : option json).

(** The external service seen from one batch: its answer to each attempt. *)
Definition service : Type := Z → response.

(** [[None] * len(accounts)] *)
Definition none_list (accounts : list string) : list json :=
  replicate (length accounts) JNull.

(** [GeminiService._call_api], lines 120-151. *)
Definition _call_api (accounts : list string) (resp : response)
  : result (list json) :=
  match resp with
  | ApiRaises msg => Raise (ApiException msg)
  | ApiText (Some results) =>
      match results with
      | JArr l =>
          if Nat.eqb (length l) (length accounts) then Ok l
          else Ok (none_list accounts)
      | _ => Ok (none_list accounts)
      end
  | ApiText None => Ok (none_list accounts)
  end.

(** [self.retry_delay * (2 ** attempt)] *)
Definition backoff (cfg : config) (attempt : Z) : Q :=
  (RETRY_DELAY cfg * inject_Z (2 ^ attempt))%Q.

(** The [for attempt in ...] loop of [_call_api_with_retry], lines 109-118,
    over the attempts still to run. *)
Fixpoint retry_loop (cfg : config) (accounts : list string) (svc : service)
    (attempts : list Z) : M (list json) :=
  match attempts with
  | [] => mret (none_list accounts)
  | attempt :: rest =>
      try_except
        (emit (EvCall attempt);; lift (_call_api accounts (svc attempt)))
        (fun e =>
           if attempt <? MAX_RETRIES cfg - 1 then
             emit (EvSleep (backoff cfg attempt));;
             retry_loop cfg accounts svc rest
           else mret (none_list accounts))
  end.

(** [GeminiService._call_api_with_retry], lines 107-118. *)
Definition _call_api_with_retry (cfg : config) (accounts : list string)
    (svc : service) : M (list json) :=
  retry_loop cfg accounts svc (range1 (MAX_RETRIES cfg)).

(** [GeminiService.clean_batch], lines 94-105. *)
Definition clean_batch (cfg : config) (accounts : list string)
    (svc : service) : M (list json) :=
  async_with_semaphore (_call_api_with_retry cfg accounts svc).

(** ** batch_clean.py *)

(** The tuple [(batch_index, batch, results, error)]. *)
Definition batch_result : Type :=
  (nat * list string * option (list json) * option string)%type.

Definition batch_index (r : batch_result) : nat := r.1.1.1.

(** [process_batch], lines 30-36. *)
Definition process_batch (cfg : config) (svc : service)
    (batch : list string) (index : nat) : M batch_result :=
  try_except
    (results ← clean_batch cfg batch svc;
     mret (index, batch, Some results, None))
    (fun e => mret (index, batch, None, Some (str e))).

(** The tasks of lines 86-89; [svc i] is the service as batch [i] meets it. *)
Definition tasks (cfg : config) (svc : nat → service)
    (batches : list (list string)) : list (M batch_result) :=
  imap (fun i batch => process_batch cfg (svc i) batch i) batches.

(** [await gather] of the tasks: the values in task order, or the first
    exception. *)
Fixpoint gather {A} (ts : list (M A)) : result (list A) :=
  match ts with
  | [] => mret []
  | t :: ts' => a ← t.1; rest ← gather ts'; mret (a :: rest)
  end.

(** [sorted(l, key=key)]: a stable sort comparing keys with [<]. *)
Fixpoint sorted_insert {A} (key : A → nat) (x : A) (l : list A) : list A :=
  match l with
  | [] => [x]
  | y :: l' =>
      if (key y <? key x)%nat then y :: sorted_insert key x l'
      else x :: y :: l'
  end.

Fixpoint sorted {A} (key : A → nat) (l : list A) : list A :=
  match l with
  | [] => []
  | x :: l' => sorted_insert key x (sorted key l')
  end.

Definition ORIGINAL_ACCOUNT : string := "原始账户名".

(** [{"原始账户名": acc}] *)
Definition placeholder (acc : string) : json :=
  JObj {[ ORIGINAL_ACCOUNT := JStr acc ]}.

(** [all_results] and [failed_accounts]. *)
Definition aggregation : Type := (list json * list string)%type.

Fixpoint foldM {S A} (f : S → A → result S) (s : S) (l : list A)
  : result S :=
  match l with
  | [] => mret s
  | x :: l' => s' ← f s x; foldM f s' l'
  end.

(** Lines 104-106: one record of a batch that carries an error. *)
Definition fail_record (st : aggregation) (acc : string) : aggregation :=
  let '(all_results, failed_accounts) := st in
  (all_results ++ [placeholder acc], failed_accounts ++ [acc]).

(** Lines 109-114: one [(acc, result)] pair of a batch with results. *)
Definition merge_record (st : aggregation) (p : string * json)
  : result aggregation :=
  let '(all_results, failed_accounts) := st in
  let '(acc, res) := p in
  if truthy res then
    row ← setitem res ORIGINAL_ACCOUNT (JStr acc);
    mret (all_results ++ [row], failed_accounts)
  else
    mret (all_results ++ [placeholder acc], failed_accounts ++ [acc]).

(** [if error:] on an optional string. *)
Definition truthy_error (error : option string) : bool :=
  match error with
  | Some msg => negb (String.eqb msg "")
  | None => false
  end.

(** Lines 101-114: the body of the loop over [batch_results]. *)
Definition merge_batch (st : aggregation) (r : batch_result)
  : result aggregation :=
  let '(_, batch, results, error) := r in
  if truthy_error error then mret (foldl fail_record st batch)
  else
    match results with
    | Some rs => foldM merge_record st (zip batch rs)
    | None => Raise TypeError
    end.

(** Lines 95-114: sort by batch index, then merge. *)
Definition aggregate (batch_results : list batch_result)
  : result aggregation :=
  foldM merge_batch ([], []) (sorted batch_index batch_results).

(** Lines 82-89 of [main]: partition and create one task per batch;
    [accounts] is the preprocessed input. *)
Definition dispatch (cfg : config) (svc : nat → service)
    (accounts : list string) : result (list (M batch_result)) :=
  batches ← partition cfg accounts;
  mret (tasks cfg svc batches).

(** [main] from line 82 to line 114. *)
Definition main (cfg : config) (svc : nat → service)
    (accounts : list string) : result aggregation :=
  ts ← dispatch cfg svc accounts;
  batch_results ← gather ts;
  aggregate batch_results.

(** ** Vocabulary of the statements *)

(** The attempt ends in an exception. *)
Definition raises (resp : response) : bool :=
  match resp with
  | ApiRaises _ => true
  | ApiText _ => false
  end.

(** The attempt delivers a JSON list of the wrong length. *)
Definition wrong_length (accounts : list string) (resp : response) : bool :=
  match resp with
  | ApiText (Some (JArr l)) => negb (Nat.eqb (length l) (length accounts))
  | _ => false
  end.

(** The attempt delivers a JSON list of the length of the batch whose
    elements all satisfy [p]. *)
Definition delivers (p : json → bool) (accounts : list string)
    (resp : response) : bool :=
  match resp with
  | ApiText (Some (JArr l)) =>
      Nat.eqb (length l) (length accounts) && forallb p l
  | _ => false
  end.

(** Every list the attempt delivers has elements of type
    [Optional[dict]]. *)
Definition well_typed (resp : response) : bool :=
  match resp with
  | ApiText (Some (JArr l)) => forallb optional_dict l
  | _ => true
  end.

(** What [clean_batch] returns for a batch. *)
Definition cleaned (cfg : config) (svc : service) (batch : list string)
  : list json :=
  match (clean_batch cfg batch svc).1 with
  | Ok results => results
  | Raise _ => []
  end.

(** The per-record results of a run, in input order. *)
Definition record_results (cfg : config) (svc : nat → service)
    (batches : list (list string)) : list json :=
  concat (imap (fun i batch => cleaned cfg (svc i) batch) batches).

(** The tuples the tasks of a run return, in task order. *)
Definition outcomes (cfg : config) (svc : nat → service)
    (batches : list (list string)) : list batch_result :=
  imap (fun i batch => (i, batch, Some (cleaned cfg (svc i) batch), None))
       batches.

(** The row that record [acc] gets from a result [res] of type
    [Optional[dict]]. *)
Definition row_of (acc : string) (res : json) : json :=
  match res with
  | JObj d =>
      if Nat.eqb (size d) 0 then placeholder acc
      else JObj (<[ORIGINAL_ACCOUNT := JStr acc]> d)
  | _ => placeholder acc
  end.

(** The records whose result is falsy, in order. *)
Definition failures_of (accounts : list string) (rs : list json)
  : list string :=
  (List.filter (fun p : string * json => negb (truthy p.2))
               (zip accounts rs)).*1.

(** ** The coroutines of [clean_batch] under the event loop

    Between two suspension points a coroutine runs alone; the event loop
    may resume any coroutine that can go on.  A coroutine of
    [clean_batch] is in one of these places. *)
Inductive task : Type :=
  | Waiting                                (* before [async with] *)
  | Holding (attempts : list Z)            (* at the head of the loop *)
  | Calling (attempt : Z) (rest : list Z)  (* [_call_api] in flight *)
  | Sleeping (rest : list Z)               (* in [asyncio.sleep] *)
  | Returning (results : list json)        (* leaving [async with] *)
  | Done (results : list json).

Inductive task_step (cfg : config) (accounts : list string) (svc : service)
  : task → option event → task → Prop :=
  | T_acquire :
      task_step cfg accounts svc
        Waiting (Some EvAcquire) (Holding (range1 (MAX_RETRIES cfg)))
  | T_exhausted :
      task_step cfg accounts svc
        (Holding []) None (Returning (none_list accounts))
  | T_call attempt rest :
      task_step cfg accounts svc
        (Holding (attempt :: rest)) (Some (EvCall attempt))
        (Calling attempt rest)
  | T_return attempt rest results :
      _call_api accounts (svc attempt) = Ok results →
      task_step cfg accounts svc
        (Calling attempt rest) None (Returning results)
  | T_retry attempt rest e :
      _call_api accounts (svc attempt) = Raise e →
      (attempt <? MAX_RETRIES cfg - 1) = true →
      task_step cfg accounts svc
        (Calling attempt rest) (Some (EvSleep (backoff cfg attempt)))
        (Sleeping rest)
  | T_give_up attempt rest e :
      _call_api accounts (svc attempt) = Raise e →
      (attempt <? MAX_RETRIES cfg - 1) = false →
      task_step cfg accounts svc
        (Calling attempt rest) None (Returning (none_list accounts))
  | T_wake rest :
      task_step cfg accounts svc (Sleeping rest) None (Holding rest)
  | T_release results :
      task_step cfg accounts svc
        (Returning results) (Some EvRelease) (Done results).

(** [asyncio.Semaphore]: [acquire] takes a slot when the counter is
    positive and waits otherwise; [release] gives it back. *)
Definition semaphore_step (value : Z) (ev : option event) : option Z :=
  match ev with
  | Some EvAcquire => if 0 <? value then Some (value - 1) else None
  | Some EvRelease => Some (value + 1)
  | _ => Some value
  end.

Record system : Type := System {
  semaphore : Z;
  coroutines : list task
}.

(** One batch with the service as it meets it. *)
Definition job : Type := (list string * service)%type.

(** One step of the event loop: some coroutine goes on.  Any waiting
    coroutine may take a free slot, which covers the first-come order in
    which [asyncio] wakes them. *)
Inductive step (cfg : config) (jobs : list job) : system → system → Prop :=
  | Step s i accounts svc t ev t' value' :
      jobs !! i = Some (accounts, svc) →
      coroutines s !! i = Some t →
      task_step cfg accounts svc t ev t' →
      semaphore_step (semaphore s) ev = Some value' →
      step cfg jobs s (System value' (<[i := t']> (coroutines s))).

(** All tasks created, none started: the state at [gather]. *)
Definition initial (cfg : config) (jobs : list job) : system :=
  System (MAX_CONCURRENT_REQUESTS cfg) (replicate (length jobs) Waiting).

Definition reachable (cfg : config) (jobs : list job) (s : system) : Prop :=
  rtc (step cfg jobs) (initial cfg jobs) s.

Definition holds_slot (t : task) : bool :=
  match t with
  | Holding _ | Calling _ _ | Sleeping _ | Returning _ => true
  | Waiting | Done _ => false
  end.

Definition in_flight (t : task) : bool :=
  match t with
  | Calling _ _ => true
  | _ => false
  end.

Fixpoint count {A} (p : A → bool) (l : list A) : nat :=
  match l with
  | [] => O
  | x :: l' => ((if p x then 1 else 0) + count p l')%nat
  end.

(** A coroutine running on its own, with the events it goes through. *)
Inductive task_run (cfg : config) (accounts : list string) (svc : service)
  : task → trace → task → Prop :=
  | run_done t :
      task_run cfg accounts svc t [] t
  | run_step t ev t' tr t'' :
      task_step cfg accounts svc t ev t' →
      task_run cfg accounts svc t' tr t'' →
      task_run cfg accounts svc t (option_list ev ++ tr) t''.

(** The slot accounting of the semaphore: the counter is never negative,
    and the counter plus the coroutines inside [async with] make up the
    configured bound. *)
Definition slots_accounted (cfg : config) (s : system) : Prop :=
  0 ≤ semaphore s ∧
  semaphore s + Z.of_nat (count holds_slot (coroutines s))
    = MAX_CONCURRENT_REQUESTS cfg.

(** ** Properties of traces *)


Definition is_slot_event (ev : event) : bool :=
  match ev with EvAcquire | EvRelease => true | _ => false end.

(** The delays of the sleeps of a trace, in order. *)
Fixpoint delays (t : trace) : list Q :=
  match t with
  | [] => []
  | EvSleep d :: t' => d :: delays t'
  | _ :: t' => delays t'
  end.

(** The slot is taken right before each call and given back right after
    it, and is free during every sleep. *)
Fixpoint slot_per_call (t : trace) : bool :=
  match t with
  | [] => true
  | EvAcquire :: EvCall _ :: EvRelease :: t' => slot_per_call t'
  | EvSleep _ :: t' => slot_per_call t'
  | _ => false
  end.

(** The trace of attempts that all raised and were each followed by a
    backoff sleep. *)
Definition failed_attempts (cfg : config) (attempts : list Z) : trace :=
  flat_map (fun k => [EvCall k; EvSleep (backoff cfg k)]) attempts.

(** ** Sample services and inputs *)

(** The service is down: every attempt raises. *)
Definition svc_down : service := fun _ => ApiRaises "503 UNAVAILABLE".

(** The service answers every attempt with the JSON list [l]. *)
Definition svc_answers (l : list json) : service :=
  fun _ => ApiText (Some (JArr l)).

(** The first attempt gets [first], later attempts go to [later]. *)
Definition svc_then (first : response) (later : service) : service :=
  fun attempt => if attempt =? 0 then first else later attempt.

Definition sample_row : json :=
  JObj {[ "名称" := JStr "收徒" ]}.

(** Two one-record batches against a service that is down, with a single
    slot. *)
Definition one_slot : config :=
  {| MAX_CONCURRENT_REQUESTS := 1;
     BATCH_SIZE := 1;
     MAX_RETRIES := 5;
     RETRY_DELAY := 2 |}.

Definition two_jobs : list job :=
  [(["iaa-1226-收徒"], svc_down); (["iap-0103-诺亚之影"], svc_down)].

(** The scenario of three records in batches of two: the first batch is
    cleaned at once, with no result for its second record; the service is
    down for the second batch. *)
Definition batches_of_two : config :=
  {| MAX_CONCURRENT_REQUESTS := 20;
     BATCH_SIZE := 2;
     MAX_RETRIES := 5;
     RETRY_DELAY := 2 |}.

Definition three_records : list string :=
  ["iaa-1226-收徒"; "iap-0103-诺亚之影"; "iaa-0121-不速之客"].

Definition svc_scenario : nat → service :=
  fun i =>
    match i with
    | O => svc_answers [sample_row; JNull]
    | _ => svc_down
    end.

Definition scenario_batches : list (list string) :=
  [["iaa-1226-收徒"; "iap-0103-诺亚之影"]; ["iaa-0121-不速之客"]].


(** The second batch arrives first. *)
Definition scenario_done : list batch_result :=
  [(1%nat, ["iaa-0121-不速之客"], Some [JNull], None);
   (0%nat, ["iaa-1226-收徒"; "iap-0103-诺亚之影"],
    Some [sample_row; JNull], None)].

(** Every batch is cleaned in full at the first attempt. *)
Definition svc_cleans_all : nat → service :=
  fun i =>
    match i with
    | O => svc_answers [sample_row; sample_row]
    | _ => svc_answers [sample_row]
    end.

(** The first coroutine has its call in flight, the second one waits for
    the slot. *)
Definition one_in_flight : system :=
  System 0 [Calling 0 [1; 2; 3; 4]; Waiting].

(** ** preprocessor.py

    A Python [str] is the list of its code points. *)
Definition pystr : Type := list Z.

Definition HYPHEN : Z := 0x2D.
Definition UNDERSCORE : Z := 0x5F.
Definition SPACE : Z := 0x20.

(** The dash variants of [normalize_separator], lines 19-27. *)
Definition separator_variants : list Z :=
  [0x2014; 0x2013; 0x2015; 0xFF0D; 0x2010; 0x2011; 0x2043].

(** [text.replace(old, new)] for single characters. *)
Definition replace_char (old new : Z) (text : pystr) : pystr :=
  map (fun c => if c =? old then new else c) text.

(** [str.isspace] on one character; the class [\s] of [re] is the same. *)
Definition isspace (c : Z) : bool :=
  ((0x09 <=? c) && (c <=? 0x0D)) || ((0x1C <=? c) && (c <=? 0x20))
  || (c =? 0x85) || (c =? 0xA0) || (c =? 0x1680)
  || ((0x2000 <=? c) && (c <=? 0x200A))
  || (c =? 0x2028) || (c =? 0x2029) || (c =? 0x202F) || (c =? 0x205F)
  || (c =? 0x3000).

(** [re.sub(r'\s+', ' ', text)]: every maximal run of whitespace becomes
    one space; [in_run] tells that the run has begun. *)
Fixpoint sub_whitespace (in_run : bool) (text : pystr) : pystr :=
  match text with
  | [] => []
  | c :: text' =>
      if isspace c then
        if in_run then sub_whitespace true text'
        else SPACE :: sub_whitespace true text'
      else c :: sub_whitespace false text'
  end.

Fixpoint lstrip (text : pystr) : pystr :=
  match text with
  | [] => []
  | c :: text' => if isspace c then lstrip text' else text
  end.

Fixpoint rstrip (text : pystr) : pystr :=
  match text with
  | [] => []
  | c :: text' =>
      match rstrip text' with
      | [] => if isspace c then [] else [c]
      | kept => c :: kept
      end
  end.

(** [text.strip()] *)
Definition strip (text : pystr) : pystr := rstrip (lstrip text).

(** [normalize_separator], lines 8-36. *)
Definition normalize_separator (text : pystr) : pystr :=
  let result :=
    foldl (fun result variant => replace_char variant HYPHEN result)
          text separator_variants in
  strip (sub_whitespace false result).

(** [preprocess_accounts], lines 39-48. *)
Definition preprocess_accounts (accounts : list pystr) : list pystr :=
  map normalize_separator accounts.

(** ** batch_clean.py, lines 57-75: from the column to the accounts *)

(** ["账户"], ["账户名"], ["原始账户"], ["account"] *)
Definition HEADER_NAMES : list pystr :=
  [[0x8D26; 0x6237];
   [0x8D26; 0x6237; 0x540D];
   [0x539F; 0x59CB; 0x8D26; 0x6237];
   [0x61; 0x63; 0x63; 0x6F; 0x75; 0x6E; 0x74]].

(** Lines 57-59. *)
Definition skip_header (accounts : list pystr) : list pystr :=
  match accounts with
  | first :: rest =>
      if bool_decide (first ∈ HEADER_NAMES) then rest else accounts
  | [] => accounts
  end.

(** The test of line 63. *)
Definition looks_like_account (acc : pystr) : bool :=
  (5 <? Z.of_nat (length acc))
  && (bool_decide (HYPHEN ∈ acc) || bool_decide (UNDERSCORE ∈ acc)).

(** Lines 68-69 for a value of [MAX_ROWS]; [None] and [0] are falsy. *)
Definition limit_rows (MAX_ROWS : option Z) (accounts : list pystr)
  : list pystr :=
  match MAX_ROWS with
  | None => accounts
  | Some m => if m =? 0 then accounts else slice accounts 0 m
  end.

(** Lines 57-75: skip the header, filter, limit, normalize. *)
Definition prepare_accounts (MAX_ROWS : option Z) (column : list pystr)
  : list pystr :=
  map normalize_separator
    (limit_rows MAX_ROWS
       (List.filter looks_like_account (skip_header column))).

(** All dash variants at once. *)
Definition to_hyphen (c : Z) : Z :=
  if bool_decide (c ∈ separator_variants) then HYPHEN else c.

(** Whitespace occurs only as single spaces, none of them right after
    whitespace ([after_space]: the text follows a whitespace character). *)
Fixpoint single_spaced (after_space : bool) (text : pystr) : bool :=
  match text with
  | [] => true
  | c :: text' =>
      if isspace c then
        negb after_space && (c =? SPACE) && single_spaced true text'
      else single_spaced false text'
  end.

(** The normal form of [normalize_separator]: no dash variant, whitespace
    only as single spaces, none at either end. *)
Definition normalized (text : pystr) : Prop :=
  Forall (fun c => c ∉ separator_variants) text ∧
  single_spaced false text = true ∧
  (∀ c, head text = Some c → isspace c = false) ∧
  (∀ c, last text = Some c → isspace c = false).

(** The characters of a text that are not whitespace. *)
Definition visible (text : pystr) : pystr :=
  List.filter (fun c => negb (isspace c)) text.

(** ** Further vocabulary *)

(** What the retry loop returns when it stops at an attempt that got
    [resp]. *)
Definition attempt_result (accounts : list string) (resp : response)
  : list json :=
  match _call_api accounts resp with
  | Ok results => results
  | Raise _ => none_list accounts
  end.

(** The time spent in backoff sleeps. *)
Definition total_delay (t : trace) : Q :=
  foldr Qplus 0%Q (delays t).

(** [row["原始账户名"]] of an output row. *)
Definition original_account (row : json) : option json :=
  match row with
  | JObj d => d !! ORIGINAL_ACCOUNT
  | _ => None
  end.

(** A truthy result that is not a dict. *)
Definition ill_typed (res : json) : bool :=
  truthy res && negb (optional_dict res).

(** The steps a coroutine has left at most. *)
Definition fuel (cfg : config) (t : task) : nat :=
  match t with
  | Waiting => 3 * Z.to_nat (MAX_RETRIES cfg) + 3
  | Holding attempts => 3 * length attempts + 2
  | Calling _ rest => 3 * length rest + 4
  | Sleeping rest => 3 * length rest + 3
  | Returning _ => 1
  | Done _ => 0
  end.

Definition total_fuel (cfg : config) (s : system) : nat :=
  sum_list (fuel cfg <$> coroutines s).

(** What the retry loop over [attempts] returns. *)
Definition loop_result (cfg : config) (accounts : list string)
    (svc : service) (attempts : list Z) : list json :=
  match (retry_loop cfg accounts svc attempts).1 with
  | Ok results => results
  | Raise _ => []
  end.

(** What a coroutine returns in the end, from where it is. *)
Definition result_of (cfg : config) (accounts : list string) (svc : service)
    (t : task) : list json :=
  match t with
  | Waiting => cleaned cfg svc accounts
  | Holding attempts => loop_result cfg accounts svc attempts
  | Calling attempt rest => loop_result cfg accounts svc (attempt :: rest)
  | Sleeping rest => loop_result cfg accounts svc rest
  | Returning results | Done results => results
  end.

Definition is_done (t : task) : bool :=
  match t with Done _ => true | _ => false end.

(** The batch of a tuple. *)
Definition batch_records (r : batch_result) : list string := r.1.1.2.

Definition is_none (x : json) : bool :=
  match x with JNull => true | _ => false end.

(** More sample inputs. *)

(** [" a—\t b"] followed by an ideographic space. *)
Definition untidy_text : pystr :=
  [0x20; 0x61; 0x2014; 0x20; 0x09; 0x62; 0x3000].

(** The first batch gets a string where a dict is due. *)
Definition svc_ill_typed : nat → service :=
  fun _ => svc_answers [JStr "收徒"; JNull].

Definition scenario_rows : list json :=
  [JObj {[ "名称" := JStr "收徒";
           ORIGINAL_ACCOUNT := JStr "iaa-1226-收徒" ]};
   placeholder "iap-0103-诺亚之影";
   placeholder "iaa-0121-不速之客"].

(** One batch that is cleaned at the first attempt. *)
Definition one_job : list job :=
  [(["iaa-1226-收徒"], svc_answers [sample_row])].

Definition one_returned : system := System 1 [Done [sample_row]].

(** * Theorems *)

(** ** The partitioner *)

Section Partitioner.
Context {A : Type}.
Implicit Types l : list A.

Lemma slice_index_nonneg l i :
  0 ≤ i → slice_index l i = Nat.min (Z.to_nat i) (length l).
Proof.
  intros Hi. unfold slice_index.
  destruct (Z.ltb_spec i 0); lia.
Qed.

(** A window that starts inside or after the list is a [take] of a
    [drop]. *)
Lemma slice_window l i b :
  0 ≤ i → 0 ≤ b →
  slice l i (i + b) = take (Z.to_nat b) (drop (Z.to_nat i) l).
Proof.
  intros Hi Hb. unfold slice.
  rewrite !slice_index_nonneg by lia.
  destruct (Nat.le_gt_cases (length l) (Z.to_nat i)) as [Hout|Hin].
  - rewrite Nat.min_r by lia.
    rewrite !drop_ge by lia. by rewrite !take_nil.
  - rewrite (Nat.min_l (Z.to_nat i)) by lia.
    destruct (Nat.le_gt_cases (Z.to_nat (i + b)) (length l)) as [Hfit|Hcut].
    + rewrite Nat.min_l by lia. f_equal. lia.
    + rewrite Nat.min_r by lia.
      rewrite !take_ge; [done| |]; rewrite length_drop; lia.
Qed.

(** Cutting a list into [c] windows of width [b] loses nothing, provided
    the windows reach the end. *)
Lemma windows_concat (b : nat) :
  ∀ (c : nat) l,
    (length l ≤ c * b)%nat →
    concat (map (fun k : nat => take b (drop (k * b) l)) (seq 0 c)) = l.
Proof.
  induction c as [|c IH]; intros l Hlen.
  - destruct l; [done | simpl in Hlen; lia].
  - rewrite <- cons_seq, <- fmap_S_seq. simpl.
    rewrite drop_0.
    transitivity (take b l ++ drop b l); [|apply take_drop].
    f_equal.
    rewrite <- (IH (drop b l)) at 1 by (rewrite length_drop; lia).
    f_equal. rewrite <- list_fmap_compose.
    apply list_fmap_ext. intros _ k _. simpl.
    rewrite drop_drop. do 2 f_equal; lia.
Qed.
End Partitioner.

Lemma range_length_positive n b :
  0 < n → 0 < b →
  let c := range_length 0 n b in
  0 < c ∧ (c - 1) * b ≤ n - 1 ∧ n - 1 < c * b.
Proof.
  intros Hn Hb. unfold range_length.
  destruct (Z.ltb_spec 0 b); [|lia].
  destruct (Z.ltb_spec 0 n); [|lia].
  replace (n - 0 - 1) with (n - 1) by lia.
  pose proof (Z.div_mod (n - 1) b ltac:(lia)).
  pose proof (Z.mod_pos_bound (n - 1) b Hb).
  pose proof (Z.div_pos (n - 1) b ltac:(lia) Hb).
  cbn zeta. nia.
Qed.

Lemma range_length_empty b : 0 < b → range_length 0 0 b = 0.
Proof.
  intros Hb. unfold range_length.
  by destruct (Z.ltb_spec 0 b); [|lia].
Qed.

(** With a positive batch size the comprehension of line 82 is a list of
    windows of that width. *)
Lemma partition_windows cfg accounts :
  0 < BATCH_SIZE cfg →
  partition cfg accounts =
    Ok (map (fun k : nat =>
               take (Z.to_nat (BATCH_SIZE cfg))
                    (drop (k * Z.to_nat (BATCH_SIZE cfg)) accounts))
            (seq 0 (Z.to_nat
               (range_length 0 (Z.of_nat (length accounts)) (BATCH_SIZE cfg))))).
Proof.
  intros Hb. unfold partition, range.
  destruct (Z.eqb_spec (BATCH_SIZE cfg) 0); [lia|].
  simpl. f_equal. rewrite <- list_fmap_compose.
  apply list_fmap_ext. intros _ k _. simpl.
  rewrite slice_window by lia. do 2 f_equal. lia.
Qed.

(** With a positive batch size the partition loses and reorders nothing. *)
Lemma partition_cover cfg accounts :
  0 < BATCH_SIZE cfg →
  ∃ batches,
    partition cfg accounts = Ok batches ∧ concat batches = accounts.
Proof.
  intros Hb. eexists. split; [by apply partition_windows|].
  apply windows_concat.
  destruct (Z.eq_dec (Z.of_nat (length accounts)) 0) as [Hn|Hn].
  - lia.
  - pose proof (range_length_positive (Z.of_nat (length accounts))
                  (BATCH_SIZE cfg) ltac:(lia) Hb) as Hc.
    simpl in Hc. nia.
Qed.

(** C5. For every input sequence and every positive batch size, the
    partitioner returns batches whose concatenation in batch-index order
    is the input; every batch has between 1 and [BATCH_SIZE] records, and
    every batch but the last has exactly [BATCH_SIZE]. *)
Theorem partition_exact_cover cfg accounts :
  0 < BATCH_SIZE cfg →
  ∃ batches,
    partition cfg accounts = Ok batches ∧
    concat batches = accounts ∧
    ∀ (i : nat) batch,
      batches !! i = Some batch →
      1 ≤ Z.of_nat (length batch) ≤ BATCH_SIZE cfg ∧
      ((S i < length batches)%nat →
       Z.of_nat (length batch) = BATCH_SIZE cfg).
Proof.
  intros Hb.
  destruct (partition_cover cfg accounts Hb) as (batches & Hpart & Hcat).
  exists batches. split_and!; [done..|].
  rewrite partition_windows in Hpart by done. injection Hpart as <-.
  set (n := Z.of_nat (length accounts)).
  set (c := range_length 0 n (BATCH_SIZE cfg)).
  assert (Hc : n = 0 ∧ c = 0 ∨
               0 < n ∧ 0 < c ∧ (c - 1) * BATCH_SIZE cfg ≤ n - 1
                 ∧ n - 1 < c * BATCH_SIZE cfg).
  { destruct (Z.eq_dec n 0) as [Hn|Hn].
    - left. split; [done|]. subst c. rewrite Hn.
      by apply range_length_empty.
    - right. split; [lia|]. apply range_length_positive; lia. }
  intros i batch Hi.
  rewrite list_lookup_fmap in Hi.
  destruct (seq 0 (Z.to_nat c) !! i) as [k|] eqn:Hk; [|done].
  apply lookup_seq in Hk as [-> Hlt]. simpl in Hi.
  injection Hi as <-.
  rewrite length_fmap, length_seq, length_take, length_drop.
  subst n. nia.
Qed.

(** ** One call and the retry loop *)

Lemma length_none_list accounts : length (none_list accounts) = length accounts.
Proof. apply length_replicate. Qed.

Lemma call_api_length accounts resp results :
  _call_api accounts resp = Ok results → length results = length accounts.
Proof.
  unfold _call_api. intros H.
  destruct resp as [msg|[[]|]]; try discriminate;
    try (injection H as <-; apply length_none_list).
  destruct (Nat.eqb_spec (length l) (length accounts));
    injection H as <-; [done | apply length_none_list].
Qed.

Lemma call_api_raises accounts resp :
  raises resp = true → ∃ e, _call_api accounts resp = Raise e.
Proof. destruct resp; [by eexists | done]. Qed.

Lemma call_api_wrong_length accounts resp :
  wrong_length accounts resp = true →
  _call_api accounts resp = Ok (none_list accounts).
Proof.
  destruct resp as [msg|[[]|]]; try done. simpl.
  by destruct (Nat.eqb _ _).
Qed.

Section RetryLoop.
Variable cfg : config.
Variable accounts : list string.
Variable svc : service.

Lemma retry_loop_return attempt rest results :
  _call_api accounts (svc attempt) = Ok results →
  retry_loop cfg accounts svc (attempt :: rest) = (Ok results, [EvCall attempt]).
Proof. intros H. simpl. unfold lift. by rewrite H. Qed.

Lemma retry_loop_retry attempt rest e :
  _call_api accounts (svc attempt) = Raise e →
  attempt < MAX_RETRIES cfg - 1 →
  retry_loop cfg accounts svc (attempt :: rest) =
    ((retry_loop cfg accounts svc rest).1,
     EvCall attempt :: EvSleep (backoff cfg attempt)
       :: (retry_loop cfg accounts svc rest).2).
Proof.
  intros H Hlt. simpl. unfold lift. rewrite H. simpl.
  destruct (Z.ltb_spec attempt (MAX_RETRIES cfg - 1)); [|lia].
  simpl. by destruct (retry_loop cfg accounts svc rest).
Qed.

Lemma retry_loop_give_up attempt rest e :
  _call_api accounts (svc attempt) = Raise e →
  MAX_RETRIES cfg - 1 ≤ attempt →
  retry_loop cfg accounts svc (attempt :: rest) =
    (Ok (none_list accounts), [EvCall attempt]).
Proof.
  intros H Hge. simpl. unfold lift. rewrite H. simpl.
  by destruct (Z.ltb_spec attempt (MAX_RETRIES cfg - 1)); [lia|].
Qed.

(** The loop always returns a list as long as the batch, and touches
    the semaphore nowhere. *)
Lemma retry_loop_total attempts :
  ∃ results t,
    retry_loop cfg accounts svc attempts = (Ok results, t) ∧
    length results = length accounts ∧
    Forall (fun ev => is_slot_event ev = false) t.
Proof.
  induction attempts as [|attempt rest (results & t & IH & Hlen & Ht)].
  - exists (none_list accounts), [].
    split_and!; [done | apply length_none_list | constructor].
  - destruct (_call_api accounts (svc attempt)) as [rs|e] eqn:Hcall.
    + exists rs, [EvCall attempt].
      split_and!; [by apply retry_loop_return
                  | by eapply call_api_length | by repeat constructor].
    + destruct (Z.lt_ge_cases attempt (MAX_RETRIES cfg - 1)).
      * exists results, (EvCall attempt :: EvSleep (backoff cfg attempt) :: t).
        split_and!; [|done|by repeat constructor].
        erewrite retry_loop_retry by done. by rewrite IH.
      * exists (none_list accounts), [EvCall attempt].
        split_and!; [by eapply retry_loop_give_up
                    | apply length_none_list | by repeat constructor].
Qed.

(** Attempts that raise before the last one cost a call and a backoff
    sleep each, and leave the rest of the loop to run. *)
Lemma retry_loop_failed_prefix (j : nat) :
  ∀ (i m : nat),
    (j < m)%nat →
    Z.of_nat (i + m) ≤ MAX_RETRIES cfg →
    (∀ k : nat, (i ≤ k < i + j)%nat → raises (svc (Z.of_nat k)) = true) →
    retry_loop cfg accounts svc (Z.of_nat <$> seq i m) =
      ((retry_loop cfg accounts svc (Z.of_nat <$> seq (i + j) (m - j))).1,
       failed_attempts cfg (Z.of_nat <$> seq i j)
         ++ (retry_loop cfg accounts svc
               (Z.of_nat <$> seq (i + j) (m - j))).2).
Proof.
  induction j as [|j IH]; intros i m Hjm Hmax Hfail.
  - rewrite Nat.add_0_r, Nat.sub_0_r. simpl.
    by destruct (retry_loop _ _ _ _).
  - destruct m as [|m]; [lia|]. simpl seq. rewrite !fmap_cons.
    destruct (call_api_raises accounts (svc (Z.of_nat i))) as [e He];
      [apply Hfail; lia|].
    erewrite retry_loop_retry by (done || lia).
    rewrite (IH (S i) m) by (lia || (intros; apply Hfail; lia)).
    replace (S i + j)%nat with (i + S j)%nat by lia.
    by replace (m - j)%nat with (S m - S j)%nat by lia.
Qed.
End RetryLoop.

(** [range(stop)] is [range(0, stop, 1)]. *)
Lemma range_from_zero stop : range 0 stop 1 = Ok (range1 stop).
Proof.
  unfold range, range1, range_length. simpl. f_equal.
  replace (Z.to_nat (if 0 <? stop then (stop - 0 - 1) / 1 + 1 else 0))
    with (Z.to_nat stop)
    by (destruct (Z.ltb_spec 0 stop); [rewrite Z.div_1_r|]; lia).
  apply map_ext. intros k. lia.
Qed.


Lemma length_range1 n : length (range1 n) = Z.to_nat n.
Proof. unfold range1. by rewrite length_map, length_seq. Qed.



Lemma delays_app t1 t2 : delays (t1 ++ t2) = delays t1 ++ delays t2.
Proof.
  induction t1 as [|ev t1 IH]; [done|].
  destruct ev; simpl; by rewrite IH.
Qed.

Lemma delays_failed_attempts cfg attempts :
  delays (failed_attempts cfg attempts) = backoff cfg <$> attempts.
Proof. induction attempts as [|k l IH]; simpl; [done | by rewrite IH]. Qed.


(** The whole trace of a loop whose attempts all raise. *)
Lemma retry_all_raise cfg accounts svc :
  (∀ k, 0 ≤ k < MAX_RETRIES cfg → raises (svc k) = true) →
  _call_api_with_retry cfg accounts svc =
    (Ok (none_list accounts),
     failed_attempts cfg (range1 (MAX_RETRIES cfg - 1))
       ++ (if 0 <? MAX_RETRIES cfg then [EvCall (MAX_RETRIES cfg - 1)] else [])).
Proof.
  intros Hfail. unfold _call_api_with_retry.
  destruct (Z.ltb_spec 0 (MAX_RETRIES cfg)) as [Hpos|Hneg].
  - set (n := Z.to_nat (MAX_RETRIES cfg - 1)).
    assert (Hn : MAX_RETRIES cfg = Z.of_nat (S n)) by (subst n; lia).
    clearbody n.
    unfold range1 at 1. rewrite Hn, Nat2Z.id.
    change (map Z.of_nat ?l) with (Z.of_nat <$> l).
    rewrite (retry_loop_failed_prefix cfg accounts svc n 0 (S n))
      by (lia || (intros; apply Hfail; lia)).
    replace (S n - n)%nat with 1%nat by lia. simpl seq. simpl fmap.
    destruct (call_api_raises accounts (svc (Z.of_nat n))) as [e He];
      [apply Hfail; lia|].
    erewrite retry_loop_give_up by (done || lia). simpl.
    replace (Z.of_nat (S n) - 1) with (Z.of_nat n) by lia.
    unfold range1. by rewrite Nat2Z.id.
  - unfold range1. replace (Z.to_nat (MAX_RETRIES cfg)) with O by lia.
    replace (Z.to_nat (MAX_RETRIES cfg - 1)) with O by lia. done.
Qed.


(** ** The retry routine and [clean_batch] *)

(** [clean_batch] returns what the retry loop returns, between taking and
    giving back the slot. *)
Lemma clean_batch_total cfg svc batch :
  ∃ body,
    clean_batch cfg batch svc
      = (Ok (cleaned cfg svc batch), EvAcquire :: body ++ [EvRelease]) ∧
    _call_api_with_retry cfg batch svc = (Ok (cleaned cfg svc batch), body) ∧
    length (cleaned cfg svc batch) = length batch ∧
    Forall (fun ev => is_slot_event ev = false) body.
Proof.
  destruct (retry_loop_total cfg batch svc (range1 (MAX_RETRIES cfg)))
    as (results & t & Hloop & Hlen & Hfree).
  exists t. unfold cleaned, clean_batch, _call_api_with_retry.
  by rewrite Hloop.
Qed.

Lemma process_batch_total cfg svc batch index :
  (process_batch cfg svc batch index).1
    = Ok (index, batch, Some (cleaned cfg svc batch), None).
Proof.
  destruct (clean_batch_total cfg svc batch) as (body & Hclean & _).
  unfold process_batch. by rewrite Hclean.
Qed.


(** C3, as the code has it. [clean_batch] takes the slot once, before the
    first attempt, and gives it back once, after the retry routine has
    returned: every call and every backoff sleep of the batch lies between
    the two. *)
Theorem slot_held_across_retries cfg accounts svc :
  ∃ body,
    (clean_batch cfg accounts svc).2 = EvAcquire :: body ++ [EvRelease] ∧
    body = (_call_api_with_retry cfg accounts svc).2 ∧
    Forall (fun ev => is_slot_event ev = false) body.
Proof.
  destruct (clean_batch_total cfg svc accounts)
    as (body & Hclean & Hretry & _ & Hfree).
  exists body. by rewrite Hclean, Hretry.
Qed.

(** C3, as stated, fails: when the first attempt raises, the batch sleeps
    its backoff between [EvAcquire] and [EvRelease]. *)
Lemma slot_held_during_backoff :
  let svc := svc_then (ApiRaises "503") (svc_answers [sample_row]) in
  (clean_batch config_py ["iaa-1226-收徒"] svc).2
    = [EvAcquire; EvCall 0; EvSleep 2; EvCall 1; EvRelease] ∧
  slot_per_call (clean_batch config_py ["iaa-1226-收徒"] svc).2 = false.
Proof. split; reflexivity. Qed.

(** C2, as the code has it. An attempt that delivers a list of the wrong
    length is not retried: it ends the loop at once, without a backoff
    sleep, and the routine returns [None] for every account. *)
Theorem wrong_length_ends_retry cfg accounts svc (k : nat) :
  Z.of_nat k < MAX_RETRIES cfg →
  (∀ j : nat, (j < k)%nat → raises (svc (Z.of_nat j)) = true) →
  wrong_length accounts (svc (Z.of_nat k)) = true →
  _call_api_with_retry cfg accounts svc
    = (Ok (none_list accounts),
       failed_attempts cfg (range1 (Z.of_nat k)) ++ [EvCall (Z.of_nat k)]).
Proof.
  intros Hk Hfail Hwrong. unfold _call_api_with_retry, range1.
  change (map Z.of_nat ?l) with (Z.of_nat <$> l).
  rewrite (retry_loop_failed_prefix cfg accounts svc k 0)
    by (lia || (intros; apply Hfail; lia)).
  destruct (Z.to_nat (MAX_RETRIES cfg) - k)%nat as [|m] eqn:Hm; [lia|].
  simpl seq. rewrite fmap_cons.
  erewrite retry_loop_return by by apply call_api_wrong_length.
  simpl. by rewrite Nat2Z.id.
Qed.

(** C2, as stated, fails: a wrong-length answer to the first attempt ends
    the loop after one call, while an exception on the first attempt is
    followed by a backoff sleep and a second call. *)
Lemma wrong_length_not_like_error :
  let wrong := svc_then (ApiText (Some (JArr []))) (svc_answers [sample_row]) in
  let error := svc_then (ApiRaises "503") (svc_answers [sample_row]) in
  wrong_length ["iaa-1226-收徒"] (wrong 0) = true ∧
  _call_api_with_retry config_py ["iaa-1226-收徒"] wrong
    = (Ok [JNull], [EvCall 0]) ∧
  _call_api_with_retry config_py ["iaa-1226-收徒"] error
    = (Ok [sample_row], [EvCall 0; EvSleep 2; EvCall 1]).
Proof. split_and!; reflexivity. Qed.



(** ** Sorting by batch index *)

Section Sorted.
Context {A : Type} (key : A → nat).

Let by_key (x y : A) : Prop := (key x ≤ key y)%nat.
Let below_key (x y : A) : Prop := (key x < key y)%nat.

Lemma sorted_insert_perm x l : sorted_insert key x l ≡ₚ x :: l.
Proof.
  induction l as [|y l IH]; simpl; [done|].
  destruct (key y <? key x)%nat; [|done].
  rewrite IH. apply perm_swap.
Qed.

Lemma sorted_perm l : sorted key l ≡ₚ l.
Proof.
  induction l as [|x l IH]; simpl; [done|].
  by rewrite sorted_insert_perm, IH.
Qed.

Lemma sorted_insert_ordered x l :
  StronglySorted by_key l → StronglySorted by_key (sorted_insert key x l).
Proof.
  induction 1 as [|y l Hl IH Hy]; simpl.
  - repeat constructor.
  - destruct (Nat.ltb_spec (key y) (key x)) as [Hlt|Hge].
    + constructor; [done|].
      rewrite sorted_insert_perm. constructor; [|done].
      unfold by_key. lia.
    + constructor; [by constructor|].
      constructor; [done|].
      eapply Forall_impl; [exact Hy|]. unfold by_key. intros; simpl in *; lia.
Qed.

Lemma sorted_ordered l : StronglySorted by_key (sorted key l).
Proof.
  induction l as [|x l IH]; simpl; [constructor|].
  by apply sorted_insert_ordered.
Qed.

(** A list whose keys strictly increase is the only ordered arrangement
    of its elements. *)
Lemma ordered_unique l :
  StronglySorted below_key l →
  ∀ l', StronglySorted by_key l' → l' ≡ₚ l → l' = l.
Proof.
  induction 1 as [|x l Hl IH Hx]; intros l' Hl' Hperm.
  - by apply Permutation_nil_r in Hperm.
  - destruct l' as [|y l'].
    { by apply Permutation_nil_cons in Hperm. }
    apply StronglySorted_inv in Hl' as [Hl' Hy].
    assert (y = x) as ->.
    { assert (Hyin : y ∈ x :: l) by (rewrite <- Hperm; left).
      assert (Hxin : x ∈ y :: l') by (rewrite Hperm; left).
      apply elem_of_cons in Hyin as [?|Hyin]; [done|].
      apply elem_of_cons in Hxin as [?|Hxin]; [done|].
      rewrite Forall_forall in Hx, Hy.
      specialize (Hx y Hyin). specialize (Hy x Hxin).
      unfold by_key, below_key in *. lia. }
    f_equal. apply IH; [done|]. by apply Permutation_cons_inv in Hperm.
Qed.

(** Sorting any arrangement of a list with strictly increasing keys
    gives that list back. *)
Lemma sorted_restores l l' :
  StronglySorted below_key l → l' ≡ₚ l → sorted key l' = l.
Proof.
  intros Hl Hperm. apply ordered_unique; [done|apply sorted_ordered|].
  by rewrite sorted_perm.
Qed.
End Sorted.

Lemma seq_increasing (start len : nat) :
  StronglySorted lt (seq start len).
Proof.
  revert start. induction len as [|len IH]; intros start; simpl.
  - constructor.
  - constructor; [apply IH|].
    apply Forall_forall. intros k Hk.
    apply list_elem_of_In, in_seq in Hk. lia.
Qed.

Lemma StronglySorted_fmap {A B} (R : B → B → Prop) (f : A → B) l :
  StronglySorted R (f <$> l) → StronglySorted (fun x y => R (f x) (f y)) l.
Proof.
  induction l as [|x l IH]; simpl; intros H; [constructor|].
  apply StronglySorted_inv in H as [Hl Hx].
  constructor; [by apply IH|].
  change (list_fmap A B f l) with (f <$> l) in Hx.
  by rewrite Forall_fmap in Hx.
Qed.

Lemma outcomes_indexes cfg svc batches :
  batch_index <$> outcomes cfg svc batches = seq 0 (length batches).
Proof.
  unfold outcomes. rewrite fmap_imap.
  apply list_eq. intros i.
  rewrite list_lookup_imap.
  destruct (batches !! i) as [b|] eqn:Hb; simpl.
  - apply lookup_lt_Some in Hb as Hlt. by rewrite lookup_seq_lt.
  - apply lookup_ge_None in Hb. by rewrite lookup_seq_ge.
Qed.

(** The barrier-then-sort step: in whatever order the tuples of the tasks
    arrive, sorting by batch index puts them in task order. *)
Lemma sorted_outcomes cfg svc batches done :
  done ≡ₚ outcomes cfg svc batches →
  sorted batch_index done = outcomes cfg svc batches.
Proof.
  intros Hperm. apply sorted_restores; [|done].
  apply (StronglySorted_fmap lt batch_index).
  rewrite outcomes_indexes. apply seq_increasing.
Qed.

Lemma gather_tasks cfg svc batches :
  gather (tasks cfg svc batches) = Ok (outcomes cfg svc batches).
Proof.
  unfold tasks, outcomes.
  enough (Hgen : ∀ (idx : nat → nat) (svc : nat → service),
    gather (imap (fun i batch => process_batch cfg (svc i) batch (idx i))
                 batches)
    = Ok (imap (fun i batch =>
                  (idx i, batch, Some (cleaned cfg (svc i) batch), None))
               batches))
    by apply (Hgen id).
  induction batches as [|b batches IH]; intros idx svc'; [done|].
  rewrite !imap_cons. simpl.
  rewrite process_batch_total. simpl.
  specialize (IH (idx ∘ S) (svc' ∘ S)).
  unfold compose in *. by rewrite IH.
Qed.

(** ** Merging the sorted tuples *)

Lemma foldM_app {S A} (f : S → A → result S) (s : S) (l1 l2 : list A) :
  foldM f s (l1 ++ l2) = foldM f s l1 ≫= fun s' => foldM f s' l2.
Proof.
  revert s. induction l1 as [|x l1 IH]; intros s; simpl; [done|].
  destruct (f s x) as [s'|e]; simpl; [apply IH | done].
Qed.

(** The pairs [(acc, result)] that the loops of lines 101-114 go through. *)
Lemma merge_outcomes (c : nat → list string → list json) batches :
  ∀ (idx : nat → nat) st,
    foldM merge_batch st
      (imap (fun i batch => (idx i, batch, Some (c i batch), None)) batches)
    = foldM merge_record st
        (concat (imap (fun i batch => zip batch (c i batch)) batches)).
Proof.
  revert c. induction batches as [|b batches IH]; intros c idx st; [done|].
  rewrite !imap_cons. simpl. rewrite foldM_app.
  destruct (foldM merge_record st (zip b (c 0%nat b))) as [st'|e]; simpl;
    [|done].
  apply (IH (c ∘ S) (idx ∘ S)).
Qed.

Lemma zip_concat_imap (c : nat → list string → list json) batches :
  (∀ i batch, length (c i batch) = length batch) →
  concat (imap (fun i batch => zip batch (c i batch)) batches)
  = zip (concat batches) (concat (imap c batches)).
Proof.
  revert c. induction batches as [|b batches IH]; intros c Hlen; [done|].
  rewrite !imap_cons. simpl.
  rewrite zip_with_app by by rewrite Hlen.
  f_equal. apply (IH (c ∘ S)). intros i batch. apply Hlen.
Qed.

Lemma merge_record_typed st acc res :
  optional_dict res = true →
  merge_record st (acc, res)
  = Ok (st.1 ++ [row_of acc res],
        st.2 ++ (if truthy res then [] else [acc])).
Proof.
  destruct st as [all_results failed_accounts].
  destruct res; try done; simpl; intros _.
  destruct (size d =? 0)%nat; simpl; [done|by rewrite app_nil_r].
Qed.

Lemma merge_records_typed accounts rs :
  forallb optional_dict rs = true →
  ∀ st,
    foldM merge_record st (zip accounts rs)
    = Ok (st.1 ++ zip_with row_of accounts rs,
          st.2 ++ failures_of accounts rs).
Proof.
  revert rs. induction accounts as [|acc accounts IH]; intros rs Hty st.
  - simpl. unfold failures_of. simpl. by rewrite !app_nil_r; destruct st.
  - destruct rs as [|res rs].
    { simpl. unfold failures_of. simpl. by rewrite !app_nil_r; destruct st. }
    simpl in Hty. apply andb_prop in Hty as [Hres Hrs].
    change (zip (acc :: accounts) (res :: rs))
      with ((acc, res) :: zip accounts rs).
    simpl foldM. rewrite merge_record_typed by done. simpl.
    rewrite IH by done. simpl. rewrite <- !app_assoc. f_equal. f_equal.
    unfold failures_of. simpl. by destruct (truthy res).
Qed.

Lemma length_record_results cfg svc batches :
  length (record_results cfg svc batches) = length (concat batches).
Proof.
  unfold record_results. revert svc.
  induction batches as [|b batches IH]; intros svc; [done|].
  rewrite imap_cons. simpl. rewrite !length_app.
  destruct (clean_batch_total cfg (svc 0%nat) b) as (_ & _ & _ & -> & _).
  f_equal. apply (IH (svc ∘ S)).
Qed.

(** Whatever holds of the all-[None] list and of every list an attempt
    hands over holds of what the retry loop returns. *)
Lemma retry_loop_result cfg accounts svc (P : list json → Prop) :
  P (none_list accounts) →
  (∀ k results, _call_api accounts (svc k) = Ok results → P results) →
  ∀ attempts results t,
    retry_loop cfg accounts svc attempts = (Ok results, t) → P results.
Proof.
  intros Hnone Hcall.
  induction attempts as [|attempt rest IH]; intros results t Hloop.
  - by injection Hloop as <- _.
  - destruct (_call_api accounts (svc attempt)) as [rs|e] eqn:Hk.
    + erewrite retry_loop_return in Hloop by done.
      injection Hloop as <- _. by eapply Hcall.
    + destruct (Z.lt_ge_cases attempt (MAX_RETRIES cfg - 1)).
      * erewrite retry_loop_retry in Hloop by done.
        destruct (retry_loop cfg accounts svc rest) as [r t'] eqn:Hrest.
        simpl in Hloop. injection Hloop as -> _. by eapply IH.
      * erewrite retry_loop_give_up in Hloop by done.
        by injection Hloop as <- _.
Qed.

Lemma cleaned_result cfg svc batch (P : list json → Prop) :
  P (none_list batch) →
  (∀ k results, _call_api batch (svc k) = Ok results → P results) →
  P (cleaned cfg svc batch).
Proof.
  intros Hnone Hcall.
  destruct (clean_batch_total cfg svc batch) as (body & _ & Hretry & _).
  by eapply retry_loop_result.
Qed.

Lemma none_list_typed accounts : forallb optional_dict (none_list accounts) = true.
Proof.
  unfold none_list. by induction (length accounts) as [|n IH].
Qed.

Lemma cleaned_typed cfg svc batch :
  (∀ k, well_typed (svc k) = true) →
  forallb optional_dict (cleaned cfg svc batch) = true.
Proof.
  intros Hty. apply cleaned_result; [apply none_list_typed|].
  intros k results Hcall. specialize (Hty k). unfold _call_api in Hcall.
  destruct (svc k) as [msg|[[]|]]; try discriminate;
    try (injection Hcall as <-; apply none_list_typed).
  destruct (length l =? length batch)%nat; injection Hcall as <-;
    [done | apply none_list_typed].
Qed.

(** The first attempt decides when it returns. *)
Lemma cleaned_first_attempt cfg svc batch results :
  0 < MAX_RETRIES cfg →
  _call_api batch (svc 0) = Ok results →
  cleaned cfg svc batch = results.
Proof.
  intros Hmax Hcall.
  destruct (clean_batch_total cfg svc batch) as (body & _ & Hretry & _).
  unfold _call_api_with_retry, range1 in Hretry.
  destruct (Z.to_nat (MAX_RETRIES cfg)) as [|n] eqn:Hn; [lia|].
  change (map Z.of_nat (seq 0 (S n)))
    with (0 :: map Z.of_nat (seq 1 n)) in Hretry.
  erewrite retry_loop_return in Hretry by done.
  by injection Hretry as <- _.
Qed.

Lemma forallb_concat_imap {A} (p : json → bool)
    (c : nat → A → list json) (l : list A) :
  (∀ i x, l !! i = Some x → forallb p (c i x) = true) →
  forallb p (concat (imap c l)) = true.
Proof.
  revert c. induction l as [|x l IH]; intros c Hall; [done|].
  rewrite imap_cons. simpl. rewrite forallb_app.
  rewrite (Hall 0%nat x) by done. simpl.
  apply (IH (c ∘ S)). intros i y Hi. by apply (Hall (S i)).
Qed.

(** The aggregation of the tuples of a run, arrived in any order, when
    every result has the declared type. *)
Lemma aggregate_outcomes cfg svc batches done :
  (∀ i batch, batches !! i = Some batch →
     forallb optional_dict (cleaned cfg (svc i) batch) = true) →
  done ≡ₚ outcomes cfg svc batches →
  aggregate done
  = Ok (zip_with row_of (concat batches) (record_results cfg svc batches),
        failures_of (concat batches) (record_results cfg svc batches)).
Proof.
  intros Hty Hperm. unfold aggregate.
  rewrite (sorted_outcomes cfg svc batches) by done. unfold outcomes.
  rewrite (merge_outcomes (fun i batch => cleaned cfg (svc i) batch) batches id).
  rewrite zip_concat_imap.
  - rewrite merge_records_typed; [done|]. by apply forallb_concat_imap.
  - intros i batch.
    by destruct (clean_batch_total cfg (svc i) batch) as (_ & _ & _ & -> & _).
Qed.


(** ** The aggregated result *)


(** Outside the declared type the merge can stop: a string in place of a
    dict makes the item assignment of line 110 raise. *)
Example ill_typed_result_raises :
  main config_py (fun _ => svc_answers [JStr "收徒"]) ["iaa-1226-收徒"]
    = Raise TypeError.
Proof. reflexivity. Qed.

Lemma main_aggregates cfg svc accounts batches :
  partition cfg accounts = Ok batches →
  main cfg svc accounts = aggregate (outcomes cfg svc batches).
Proof.
  intros Hpart. unfold main, dispatch. rewrite Hpart. simpl.
  by rewrite gather_tasks.
Qed.

Lemma call_api_delivers p accounts resp :
  delivers p accounts resp = true →
  ∃ l, _call_api accounts resp = Ok l ∧ forallb p l = true.
Proof.
  destruct resp as [msg|[[]|]]; try done. simpl.
  intros [Hlen Hp]%andb_prop. rewrite Hlen. by exists l.
Qed.

Lemma forallb_impl {A} (p q : A → bool) (l : list A) :
  (∀ x, p x = true → q x = true) →
  forallb p l = true → forallb q l = true.
Proof.
  intros Hpq. induction l as [|x l IH]; simpl; [done|].
  intros [Hx Hl]%andb_prop. by rewrite (Hpq x Hx), IH.
Qed.

Lemma nonempty_dict_typed x : nonempty_dict x = true → optional_dict x = true.
Proof. by destruct x. Qed.

Lemma nonempty_dict_truthy x : nonempty_dict x = true → truthy x = true.
Proof. by destruct x. Qed.

Lemma failures_of_truthy accounts rs :
  forallb truthy rs = true → failures_of accounts rs = [].
Proof.
  unfold failures_of. revert rs.
  induction accounts as [|acc accounts IH]; intros [|res rs] Hrs; try done.
  simpl in Hrs. apply andb_prop in Hrs as [Hres Hrs].
  change (zip (acc :: accounts) (res :: rs))
    with ((acc, res) :: zip accounts rs).
  simpl. rewrite Hres. simpl. by apply IH.
Qed.

(** C9, as the code has it. With a positive batch size and at least one
    attempt per batch: if every call returns a list of the length of its
    batch whose elements are all non-empty dicts, the run returns one row
    per record and an empty list of failed accounts. *)
Theorem all_cleaned_no_failures cfg svc accounts batches :
  0 < BATCH_SIZE cfg →
  0 < MAX_RETRIES cfg →
  partition cfg accounts = Ok batches →
  (∀ (i : nat) k batch,
     batches !! i = Some batch →
     delivers nonempty_dict batch (svc i k) = true) →
  ∃ all_results,
    main cfg svc accounts = Ok (all_results, []) ∧
    length all_results = length accounts.
Proof.
  intros Hb Hmax Hpart Hgood.
  destruct (partition_cover cfg accounts Hb)
    as (batches' & Hpart' & Hcat).
  rewrite Hpart in Hpart'. injection Hpart' as <-.
  assert (Hclean : ∀ (i : nat) batch, batches !! i = Some batch →
            forallb nonempty_dict (cleaned cfg (svc i) batch) = true).
  { intros i batch Hi.
    destruct (call_api_delivers _ _ _ (Hgood i 0 batch Hi)) as (l & Hl & Hp).
    by rewrite (cleaned_first_attempt cfg (svc i) batch l). }
  eexists. rewrite (main_aggregates cfg svc accounts batches) by done.
  rewrite (aggregate_outcomes cfg svc batches); [| |done].
  - rewrite failures_of_truthy.
    + split; [done|].
      rewrite Hcat, length_zip_with, length_record_results, Hcat. lia.
    + apply (forallb_impl nonempty_dict); [apply nonempty_dict_truthy|].
      by apply forallb_concat_imap.
  - intros i batch Hi.
    apply (forallb_impl nonempty_dict); [apply nonempty_dict_typed|].
    by apply Hclean.
Qed.

(** C9, as stated, fails: the one call of this run succeeds and returns a
    list of the length of its batch, yet the record is reported as
    failed, because its result is [None]. *)
Lemma null_result_is_a_failure :
  let svc : nat → service := fun _ => svc_answers [JNull] in
  delivers (fun _ => true) ["iaa-1226-收徒"] (svc O 0) = true ∧
  main config_py svc ["iaa-1226-收徒"]
    = Ok ([placeholder "iaa-1226-收徒"], ["iaa-1226-收徒"]).
Proof. split; reflexivity. Qed.

(** C7, as the code has it. A batch size of zero makes [range] raise
    [ValueError] before any task is created, and the run ends with that
    exception.  A negative batch size is not rejected: the partition is
    empty, no task is created, and the run returns no rows and no failed
    accounts. *)
Theorem nonpositive_batch_size cfg svc accounts :
  BATCH_SIZE cfg ≤ 0 →
  (BATCH_SIZE cfg = 0 ∧
   dispatch cfg svc accounts = Raise ValueError ∧
   main cfg svc accounts = Raise ValueError) ∨
  (BATCH_SIZE cfg < 0 ∧
   dispatch cfg svc accounts = Ok [] ∧
   main cfg svc accounts = Ok ([], [])).
Proof.
  intros Hb. unfold main, dispatch, partition, range.
  destruct (Z.eqb_spec (BATCH_SIZE cfg) 0) as [Hz|Hnz]; [by left|].
  right. split; [lia|].
  assert (range_length 0 (Z.of_nat (length accounts)) (BATCH_SIZE cfg) = 0)
    as ->; [|done].
  unfold range_length.
  destruct (Z.ltb_spec 0 (BATCH_SIZE cfg)); [lia|].
  by destruct (Z.ltb_spec (Z.of_nat (length accounts)) 0); [lia|].
Qed.

(** C7, as stated, fails: with batch size -1 the run does not fail; it
    returns empty results for a non-empty input. *)
Lemma negative_batch_size_not_rejected :
  BATCH_SIZE (Config 20 (-1) 5 2) ≤ 0 ∧
  main (Config 20 (-1) 5 2) (fun _ => svc_down) ["iaa-1226-收徒"]
    = Ok ([], []).
Proof. split; [done | reflexivity]. Qed.

(** ** The concurrency bound *)

Lemma count_insert {A} (p : A → bool) (l : list A) (i : nat) (x y : A) :
  l !! i = Some x →
  (count p (<[i := y]> l) + (if p x then 1 else 0)
   = count p l + (if p y then 1 else 0))%nat.
Proof.
  revert i. induction l as [|z l IH]; intros [|i] Hi; simplify_eq/=.
  - destruct (p x), (p y); lia.
  - specialize (IH i Hi). destruct (p z); lia.
Qed.

Lemma count_replicate_false {A} (p : A → bool) (x : A) (n : nat) :
  p x = false → count p (replicate n x) = O.
Proof. intros Hx. induction n as [|n IH]; simpl; [done|]. by rewrite Hx. Qed.

Lemma count_le {A} (p q : A → bool) (l : list A) :
  (∀ x, p x = true → q x = true) → (count p l ≤ count q l)%nat.
Proof.
  intros Hpq. induction l as [|x l IH]; simpl; [done|].
  destruct (p x) eqn:Hp; [rewrite (Hpq x Hp)|destruct (q x)]; lia.
Qed.

(** What a step of a coroutine does to its hold on the slot. *)
Lemma task_step_slot cfg accounts svc t ev t' :
  task_step cfg accounts svc t ev t' →
  match ev with
  | Some EvAcquire => holds_slot t = false ∧ holds_slot t' = true
  | Some EvRelease => holds_slot t = true ∧ holds_slot t' = false
  | _ => holds_slot t = holds_slot t'
  end.
Proof. by destruct 1. Qed.

Lemma initial_accounted cfg jobs :
  0 ≤ MAX_CONCURRENT_REQUESTS cfg → slots_accounted cfg (initial cfg jobs).
Proof.
  intros HC. split; simpl; [done|].
  rewrite count_replicate_false by done. lia.
Qed.

Lemma step_accounted cfg jobs s s' :
  step cfg jobs s s' → slots_accounted cfg s → slots_accounted cfg s'.
Proof.
  destruct 1 as [s i accounts svc t ev t' value' _ Ht Hstep Hsem].
  intros [Hnonneg Hsum]. unfold slots_accounted. simpl.
  pose proof (count_insert holds_slot _ i t t' Ht) as Hcount.
  apply task_step_slot in Hstep.
  destruct ev as [[]|]; simpl in Hsem.
  - destruct (Z.ltb_spec 0 (semaphore s)); [|done].
    injection Hsem as <-. destruct Hstep as [Hout Hin].
    rewrite Hout, Hin in Hcount. lia.
  - injection Hsem as <-. rewrite Hstep in Hcount.
    destruct (holds_slot t'); lia.
  - injection Hsem as <-. rewrite Hstep in Hcount.
    destruct (holds_slot t'); lia.
  - injection Hsem as <-. destruct Hstep as [Hin Hout].
    rewrite Hin, Hout in Hcount. lia.
  - injection Hsem as <-. rewrite Hstep in Hcount.
    destruct (holds_slot t'); lia.
Qed.

Lemma reachable_accounted cfg jobs s :
  0 ≤ MAX_CONCURRENT_REQUESTS cfg →
  reachable cfg jobs s → slots_accounted cfg s.
Proof.
  intros HC. unfold reachable. revert s.
  apply (rtc_ind_r (slots_accounted cfg)).
  - by apply initial_accounted.
  - intros s s' _ Hstep IH. by eapply step_accounted.
Qed.

(** C8. In every state the event loop can reach, whatever the order in
    which it resumes the coroutines and however often they retry, the
    number of batches with a [_call_api] in flight is at most
    [MAX_CONCURRENT_REQUESTS]. *)
Theorem in_flight_bounded cfg jobs s :
  0 ≤ MAX_CONCURRENT_REQUESTS cfg →
  reachable cfg jobs s →
  Z.of_nat (count in_flight (coroutines s)) ≤ MAX_CONCURRENT_REQUESTS cfg.
Proof.
  intros HC Hreach.
  destruct (reachable_accounted cfg jobs s HC Hreach) as [Hnonneg Hsum].
  pose proof (count_le in_flight holds_slot (coroutines s)) as Hle.
  assert (count in_flight (coroutines s) ≤ count holds_slot (coroutines s))%nat
    by (apply Hle; by intros []).
  lia.
Qed.

Ltac run_with ev :=
  match goal with
  | |- task_run ?cfg ?accounts ?svc _ _ _ =>
      eapply (run_step cfg accounts svc _ ev)
  end.

(** The coroutine and the function [clean_batch] agree: run on its own,
    the coroutine goes through the events of [clean_batch] and ends with
    its result. *)
Lemma retry_loop_run cfg accounts svc attempts :
  task_run cfg accounts svc
    (Holding attempts)
    (retry_loop cfg accounts svc attempts).2
    (Returning (match (retry_loop cfg accounts svc attempts).1 with
                | Ok results => results
                | Raise _ => []
                end)).
Proof.
  induction attempts as [|attempt rest IH].
  - simpl. run_with (@None event); constructor.
  - destruct (_call_api accounts (svc attempt)) as [rs|e] eqn:Hcall.
    + erewrite retry_loop_return by done. simpl.
      run_with (Some (EvCall attempt)); [constructor|].
      run_with (@None event); [by constructor | constructor].
    + destruct (Z.ltb_spec attempt (MAX_RETRIES cfg - 1)) as [Hlt|Hge].
      * erewrite retry_loop_retry by done. simpl.
        run_with (Some (EvCall attempt)); [constructor|].
        run_with (Some (EvSleep (backoff cfg attempt)));
          [eapply T_retry; [done | by apply Z.ltb_lt]|].
        run_with (@None event); [constructor | exact IH].
      * erewrite retry_loop_give_up by done. simpl.
        run_with (Some (EvCall attempt)); [constructor|].
        run_with (@None event); [|constructor].
        eapply T_give_up; [done | by apply Z.ltb_ge].
Qed.

Lemma task_run_app cfg accounts svc t1 tr1 t2 tr2 t3 :
  task_run cfg accounts svc t1 tr1 t2 →
  task_run cfg accounts svc t2 tr2 t3 →
  task_run cfg accounts svc t1 (tr1 ++ tr2) t3.
Proof.
  induction 1 as [|t ev t' tr t'' Hstep Hrun IH]; intros Hrest; [done|].
  rewrite <- app_assoc. econstructor; [done | by apply IH].
Qed.

Lemma clean_batch_run cfg accounts svc :
  task_run cfg accounts svc
    Waiting (clean_batch cfg accounts svc).2 (Done (cleaned cfg svc accounts)).
Proof.
  destruct (clean_batch_total cfg svc accounts)
    as (body & Hclean & Hretry & _).
  rewrite Hclean. simpl.
  run_with (Some EvAcquire); [constructor|].
  apply task_run_app with (t2 := Returning (cleaned cfg svc accounts)).
  - pose proof (retry_loop_run cfg accounts svc (range1 (MAX_RETRIES cfg)))
      as Hrun.
    unfold _call_api_with_retry in Hretry. by rewrite Hretry in Hrun.
  - run_with (Some EvRelease); constructor.
Qed.

Example scenario_aggregated :
  aggregate scenario_done
  = Ok ([JObj {[ "名称" := JStr "收徒";
                 ORIGINAL_ACCOUNT := JStr "iaa-1226-收徒" ]};
         placeholder "iap-0103-诺亚之影";
         placeholder "iaa-0121-不速之客"],
        ["iap-0103-诺亚之影"; "iaa-0121-不速之客"]).
Proof. vm_compute. reflexivity. Qed.

(** ** The theorems at sample runs *)

Lemma partition_exact_cover_witness :
  0 < BATCH_SIZE batches_of_two ∧
  ∃ batches,
    partition batches_of_two three_records = Ok batches ∧
    concat batches = three_records ∧
    ∀ (i : nat) batch,
      batches !! i = Some batch →
      1 ≤ Z.of_nat (length batch) ≤ BATCH_SIZE batches_of_two ∧
      ((S i < length batches)%nat →
       Z.of_nat (length batch) = BATCH_SIZE batches_of_two).
Proof.
  split; [reflexivity|].
  apply (partition_exact_cover batches_of_two three_records). reflexivity.
Defined.


Lemma wrong_length_ends_retry_witness :
  let svc :=
    svc_then (ApiRaises "503")
      (svc_answers [sample_row; sample_row]) in
  _call_api_with_retry config_py ["iaa-1226-收徒"] svc
    = (Ok (none_list ["iaa-1226-收徒"]),
       failed_attempts config_py (range1 (Z.of_nat 1))
         ++ [EvCall (Z.of_nat 1)]).
Proof.
  apply (wrong_length_ends_retry config_py ["iaa-1226-收徒"]
           (svc_then (ApiRaises "503")
              (svc_answers [sample_row; sample_row])) 1).
  - reflexivity.
  - intros [|j] Hj; [reflexivity | lia].
  - reflexivity.
Defined.


Lemma nonpositive_batch_size_witness :
  let cfg := Config 20 0 5 2 in
  let svc : nat → service := fun _ => svc_down in
  (BATCH_SIZE cfg = 0 ∧
   dispatch cfg svc three_records = Raise ValueError ∧
   main cfg svc three_records = Raise ValueError) ∨
  (BATCH_SIZE cfg < 0 ∧
   dispatch cfg svc three_records = Ok [] ∧
   main cfg svc three_records = Ok ([], [])).
Proof.
  apply (nonpositive_batch_size (Config 20 0 5 2) (fun _ => svc_down)
           three_records).
  vm_compute. discriminate.
Defined.

Lemma all_cleaned_no_failures_witness :
  ∃ all_results,
    main batches_of_two svc_cleans_all three_records = Ok (all_results, []) ∧
    length all_results = length three_records.
Proof.
  apply (all_cleaned_no_failures batches_of_two svc_cleans_all three_records
           scenario_batches).
  - reflexivity.
  - reflexivity.
  - reflexivity.
  - intros [|[|i]] k batch Hi; simpl in Hi; [| |discriminate];
      injection Hi as <-; reflexivity.
Defined.


Lemma one_in_flight_reachable : reachable one_slot two_jobs one_in_flight.
Proof.
  unfold reachable.
  eapply rtc_l.
  { apply (Step one_slot two_jobs (initial one_slot two_jobs) 0
             ["iaa-1226-收徒"] svc_down Waiting (Some EvAcquire)
             (Holding (range1 (MAX_RETRIES one_slot))) 0);
      [reflexivity | reflexivity | constructor | reflexivity]. }
  eapply rtc_l; [|apply rtc_refl].
  apply (Step one_slot two_jobs
           (System 0 [Holding (range1 (MAX_RETRIES one_slot)); Waiting]) 0
           ["iaa-1226-收徒"] svc_down
           (Holding (0 :: [1; 2; 3; 4])) (Some (EvCall 0))
           (Calling 0 [1; 2; 3; 4]) 0);
    [reflexivity | reflexivity | constructor | reflexivity].
Defined.

Lemma in_flight_bounded_witness :
  Z.of_nat (count in_flight (coroutines one_in_flight))
    ≤ MAX_CONCURRENT_REQUESTS one_slot.
Proof.
  apply (in_flight_bounded one_slot two_jobs one_in_flight).
  - vm_compute. discriminate.
  - exact one_in_flight_reachable.
Defined.


(** * Beyond the dispatch core *)

(** ** preprocessor.py: [normalize_separator] *)

(** The seven replacements amount to one pass. *)
Lemma replace_variants text :
  foldl (fun result variant => replace_char variant HYPHEN result)
        text separator_variants
  = map to_hyphen text.
Proof.
  unfold separator_variants, replace_char. simpl. rewrite !map_map.
  apply map_ext. intros c. unfold to_hyphen, HYPHEN.
  case_bool_decide as Hin; unfold separator_variants in Hin.
  - repeat (apply elem_of_cons in Hin as [->|Hin]; [reflexivity|]).
    by apply elem_of_nil in Hin.
  - repeat (rewrite not_elem_of_cons in Hin; destruct Hin as [? Hin]).
    repeat match goal with
           | H : c ≠ ?v |- _ => rewrite (proj2 (Z.eqb_neq c v) H); clear H
           end.
    done.
Qed.

Lemma isspace_to_hyphen c : isspace (to_hyphen c) = isspace c.
Proof.
  unfold to_hyphen. case_bool_decide as Hin; [|done].
  unfold separator_variants in Hin.
  repeat (apply elem_of_cons in Hin as [Hc|Hin]; [by rewrite Hc|]).
  by apply elem_of_nil in Hin.
Qed.

Lemma to_hyphen_not_variant c : to_hyphen c ∉ separator_variants.
Proof.
  unfold to_hyphen. case_bool_decide as Hin; [|done].
  unfold separator_variants, HYPHEN. intros Hv.
  repeat (apply elem_of_cons in Hv as [?|Hv]; [lia|]).
  by apply elem_of_nil in Hv.
Qed.

Lemma to_hyphen_fixed c : c ∉ separator_variants → to_hyphen c = c.
Proof. intros Hc. unfold to_hyphen. by case_bool_decide. Qed.

Lemma sub_whitespace_single_spaced p text :
  single_spaced p (sub_whitespace p text) = true.
Proof.
  revert p. induction text as [|c text IH]; intros p; [done|]. simpl.
  destruct (isspace c) eqn:Hc.
  - destruct p; [apply IH|]. simpl. by rewrite IH.
  - simpl. by rewrite Hc.
Qed.

Lemma single_spaced_fixed p text :
  single_spaced p text = true → sub_whitespace p text = text.
Proof.
  revert p. induction text as [|c text IH]; intros p; [done|]. simpl.
  destruct (isspace c) eqn:Hc.
  - destruct p; [done|]. simpl.
    intros [Hsp Hrest]%andb_prop. apply Z.eqb_eq in Hsp as ->.
    by rewrite IH.
  - intros Hrest. by rewrite IH.
Qed.

Lemma single_spaced_weaken p text :
  single_spaced p text = true → single_spaced false text = true.
Proof.
  destruct text as [|c text]; [done|]. simpl.
  destruct (isspace c); [|done]. by destruct p.
Qed.

Lemma lstrip_single_spaced p text :
  single_spaced p text = true → single_spaced false (lstrip text) = true.
Proof.
  revert p. induction text as [|c text IH]; intros p; [done|]. simpl.
  destruct (isspace c) eqn:Hc.
  - intros [_ Hrest]%andb_prop. by eapply IH.
  - simpl. by rewrite Hc.
Qed.

Lemma rstrip_single_spaced p text :
  single_spaced p text = true → single_spaced p (rstrip text) = true.
Proof.
  revert p. induction text as [|c text IH]; intros p; [done|].
  simpl. intros Hsp.
  destruct (rstrip text) as [|k kept] eqn:Hr.
  - destruct (isspace c) eqn:Hc; [done|]. simpl. by rewrite Hc.
  - simpl in *. destruct (isspace c).
    + apply andb_prop in Hsp as [-> Hrest]. by apply IH in Hrest.
    + by apply IH in Hsp.
Qed.

Lemma lstrip_head text c : head (lstrip text) = Some c → isspace c = false.
Proof.
  induction text as [|k text IH]; [done|]. simpl.
  destruct (isspace k) eqn:Hk; [done|]. simpl. by intros [= <-].
Qed.

Lemma lstrip_fixed text :
  (∀ c, head text = Some c → isspace c = false) → lstrip text = text.
Proof.
  destruct text as [|c text]; [done|]. simpl. intros Hhead.
  by rewrite (Hhead c).
Qed.

Lemma rstrip_cons c text :
  rstrip (c :: text) = [] ∨ ∃ kept, rstrip (c :: text) = c :: kept.
Proof.
  simpl. destruct (rstrip text); [|by eauto].
  destruct (isspace c); by eauto.
Qed.

Lemma rstrip_head text c :
  (∀ k, head text = Some k → isspace k = false) →
  head (rstrip text) = Some c → isspace c = false.
Proof.
  destruct text as [|k text]; [done|]. intros Hhead.
  destruct (rstrip_cons k text) as [->|[kept ->]]; [done|].
  simpl. intros [= <-]. by apply Hhead.
Qed.

Lemma rstrip_last text c : last (rstrip text) = Some c → isspace c = false.
Proof.
  induction text as [|k text IH]; [done|]. simpl.
  destruct (rstrip text) as [|k' kept] eqn:Hr.
  - destruct (isspace k) eqn:Hk; [done|]. simpl. by intros [= <-].
  - change (last (k :: k' :: kept)) with (last (k' :: kept)). apply IH.
Qed.

Lemma rstrip_fixed text :
  (∀ c, last text = Some c → isspace c = false) → rstrip text = text.
Proof.
  induction text as [|k text IH]; [done|]. intros Hlast. simpl.
  destruct text as [|k' text].
  - simpl. by rewrite (Hlast k).
  - rewrite IH; [done|]. intros c Hc. by apply Hlast.
Qed.

Lemma Forall_sub_whitespace (P : Z → Prop) p text :
  P SPACE → Forall P text → Forall P (sub_whitespace p text).
Proof.
  intros Hsp. revert p.
  induction text as [|c text IH]; intros p Hall; [done|].
  apply Forall_cons in Hall as [Hc Hall]. simpl.
  destruct (isspace c); [destruct p|]; auto.
Qed.

Lemma Forall_lstrip (P : Z → Prop) text :
  Forall P text → Forall P (lstrip text).
Proof.
  induction text as [|c text IH]; [done|]. intros Hall. simpl.
  destruct (isspace c); [|done]. apply IH. by apply Forall_cons in Hall as [_ ?].
Qed.

Lemma Forall_rstrip (P : Z → Prop) text :
  Forall P text → Forall P (rstrip text).
Proof.
  induction text as [|c text IH]; [done|]. intros Hall.
  apply Forall_cons in Hall as [Hc Hall]. simpl.
  destruct (rstrip text); [destruct (isspace c)|]; auto.
Qed.

Lemma normalize_separator_unfold text :
  normalize_separator text
  = rstrip (lstrip (sub_whitespace false (map to_hyphen text))).
Proof. unfold normalize_separator, strip. by rewrite replace_variants. Qed.

Lemma normalize_separator_normalized text :
  normalized (normalize_separator text).
Proof.
  rewrite normalize_separator_unfold. split_and!.
  - apply Forall_rstrip, Forall_lstrip, Forall_sub_whitespace.
    + unfold separator_variants, SPACE. intros Hv.
      repeat (apply elem_of_cons in Hv as [?|Hv]; [lia|]).
      by apply elem_of_nil in Hv.
    + apply Forall_forall. intros c [k [-> _]]%list_elem_of_fmap.
      apply to_hyphen_not_variant.
  - apply rstrip_single_spaced.
    apply (lstrip_single_spaced false), sub_whitespace_single_spaced.
  - intros c. apply rstrip_head. intros k. apply lstrip_head.
  - apply rstrip_last.
Qed.

Lemma map_to_hyphen_fixed text :
  Forall (fun c => c ∉ separator_variants) text → map to_hyphen text = text.
Proof.
  induction 1 as [|c l Hc Hl IH]; [done|]. simpl.
  by rewrite to_hyphen_fixed, IH.
Qed.

Lemma normalized_fixed text :
  normalized text → normalize_separator text = text.
Proof.
  intros (Hvar & Hsp & Hhead & Hlast).
  rewrite normalize_separator_unfold, map_to_hyphen_fixed by done.
  rewrite single_spaced_fixed by done.
  by rewrite lstrip_fixed, rstrip_fixed.
Qed.

(** X1. Normalizing twice is the same as normalizing once, for a single
    string and for a list of accounts. *)
Theorem normalization_idempotent :
  (∀ text,
     normalize_separator (normalize_separator text)
     = normalize_separator text) ∧
  (∀ accounts,
     preprocess_accounts (preprocess_accounts accounts)
     = preprocess_accounts accounts).
Proof.
  assert (Hone : ∀ text, normalize_separator (normalize_separator text)
                         = normalize_separator text).
  { intros text. apply normalized_fixed, normalize_separator_normalized. }
  split; [done|].
  intros accounts. unfold preprocess_accounts. rewrite map_map.
  apply map_ext. intros text. apply Hone.
Qed.

(** X2. The strings [normalize_separator] leaves unchanged are exactly
    those in normal form: without dash variants, with whitespace only as
    single spaces, and without whitespace at either end. *)
Theorem normalize_separator_fixed_points text :
  normalize_separator text = text ↔ normalized text.
Proof.
  split.
  - intros <-. apply normalize_separator_normalized.
  - apply normalized_fixed.
Qed.

Lemma single_spaced_lookup p text :
  single_spaced p text = true →
  ∀ (i : nat) c,
    text !! i = Some c → isspace c = true →
    c = SPACE ∧
    (i = O → p = false) ∧
    (∀ j b, i = S j → text !! j = Some b → isspace b = false) ∧
    (∀ a, text !! S i = Some a → isspace a = false).
Proof.
  revert p. induction text as [|k text IH]; intros p Hsp i c Hi Hc; [done|].
  simpl in Hsp. destruct i as [|i]; simpl in Hi.
  - injection Hi as ->. rewrite Hc in Hsp.
    apply andb_prop in Hsp as [[Hp Hk]%andb_prop Hrest].
    split_and!.
    + by apply Z.eqb_eq.
    + intros _. by destruct p.
    + done.
    + intros a Ha. simpl in Ha. destruct text as [|a' text]; [done|].
      injection Ha as ->. simpl in Hrest.
      by destruct (isspace a).
  - assert (Hrest : single_spaced (isspace k) text = true).
    { destruct (isspace k); [|done]. by apply andb_prop in Hsp as [_ ?]. }
    destruct (IH _ Hrest i c Hi Hc) as (Hcs & Hfirst & Hprev & Hnext).
    split_and!; [done|done| |done].
    intros j b [= <-] Hb. destruct i as [|i].
    + simpl in Hb. injection Hb as <-.
      specialize (Hfirst eq_refl). done.
    + by eapply Hprev.
Qed.

(** X3. In the result of [normalize_separator] no dash variant is left,
    and every whitespace character is a space (U+0020) that stands
    between two characters that are not whitespace. *)
Theorem normalize_separator_spacing text (i : nat) c :
  normalize_separator text !! i = Some c →
  (c ∉ separator_variants) ∧
  (isspace c = true →
   c = SPACE ∧
   ∃ (j : nat) a b,
     i = S j ∧
     normalize_separator text !! j = Some a ∧ isspace a = false ∧
     normalize_separator text !! S i = Some b ∧ isspace b = false).
Proof.
  destruct (normalize_separator_normalized text)
    as (Hvar & Hsp & Hhead & Hlast).
  intros Hi. split.
  { rewrite Forall_lookup in Hvar. by eapply Hvar. }
  intros Hc.
  destruct (single_spaced_lookup _ _ Hsp i c Hi Hc)
    as (-> & _ & Hprev & Hnext).
  split; [done|].
  destruct i as [|j].
  { assert (Hh : head (normalize_separator text) = Some SPACE)
      by (by rewrite head_lookup).
    by rewrite (Hhead _ Hh) in Hc. }
  destruct (normalize_separator text !! j) as [a|] eqn:Ha.
  2:{ apply lookup_ge_None in Ha. apply lookup_lt_Some in Hi. lia. }
  destruct (normalize_separator text !! S (S j)) as [b|] eqn:Hb.
  - exists j, a, b. split_and!; [done|done|by eapply Hprev|done|by apply Hnext].
  - exfalso. apply lookup_ge_None in Hb. apply lookup_lt_Some in Hi as Hlt.
    assert (last (normalize_separator text) = Some SPACE) as Hl.
    { rewrite last_lookup.
      by replace (pred (length (normalize_separator text))) with (S j) by lia. }
    by rewrite (Hlast _ Hl) in Hc.
Qed.

Lemma visible_sub_whitespace p text :
  visible (sub_whitespace p text) = visible text.
Proof.
  revert p. induction text as [|c text IH]; intros p; [done|]. simpl.
  destruct (isspace c) eqn:Hc; simpl.
  - destruct p; simpl; by rewrite IH.
  - by rewrite Hc, IH.
Qed.

Lemma visible_lstrip text : visible (lstrip text) = visible text.
Proof.
  induction text as [|c text IH]; [done|]. simpl.
  by destruct (isspace c) eqn:Hc; simpl; [|rewrite Hc].
Qed.

Lemma visible_rstrip text : visible (rstrip text) = visible text.
Proof.
  induction text as [|c text IH]; [done|]. simpl.
  destruct (rstrip text) as [|k kept] eqn:Hr.
  - rewrite <- IH. destruct (isspace c) eqn:Hc; simpl; by rewrite ?Hc.
  - rewrite <- IH. simpl. done.
Qed.

Lemma visible_to_hyphen text :
  visible (map to_hyphen text) = map to_hyphen (visible text).
Proof.
  induction text as [|c text IH]; [done|]. simpl.
  rewrite isspace_to_hyphen. destruct (isspace c); simpl; by rewrite IH.
Qed.

Lemma length_sub_whitespace p text :
  (length (sub_whitespace p text) ≤ length text)%nat.
Proof.
  revert p. induction text as [|c text IH]; intros p; [done|]. simpl.
  pose proof (IH true). pose proof (IH false).
  destruct (isspace c); [destruct p|]; simpl; lia.
Qed.

Lemma length_lstrip text : (length (lstrip text) ≤ length text)%nat.
Proof.
  induction text as [|c text IH]; [done|]. simpl.
  destruct (isspace c); simpl; lia.
Qed.

Lemma length_rstrip text : (length (rstrip text) ≤ length text)%nat.
Proof.
  induction text as [|c text IH]; [done|]. simpl.
  destruct (rstrip text); [destruct (isspace c)|]; simpl in *; lia.
Qed.

(** X4. [normalize_separator] changes nothing but whitespace and dashes:
    the characters of the result that are not whitespace are those of the
    input, in order, with every dash variant turned into a hyphen; and
    the result is never longer than the input. *)
Theorem normalize_separator_content text :
  visible (normalize_separator text) = map to_hyphen (visible text) ∧
  (length (normalize_separator text) ≤ length text)%nat.
Proof.
  rewrite normalize_separator_unfold. split.
  - by rewrite visible_rstrip, visible_lstrip, visible_sub_whitespace,
      visible_to_hyphen.
  - pose proof (length_rstrip
      (lstrip (sub_whitespace false (map to_hyphen text)))).
    pose proof (length_lstrip (sub_whitespace false (map to_hyphen text))).
    pose proof (length_sub_whitespace false (map to_hyphen text)).
    rewrite length_map in *. lia.
Qed.

(** ** batch_clean.py, lines 57-75: header, filter, limit *)

Lemma header_is_filtered h :
  h ∈ HEADER_NAMES → looks_like_account h = false.
Proof.
  unfold HEADER_NAMES. intros Hh.
  repeat (apply elem_of_cons in Hh as [->|Hh]; [reflexivity|]).
  by apply elem_of_nil in Hh.
Qed.

(** X5. The header check of lines 57-59 never changes which rows are
    processed: each header name fails the test of line 63, so the filter
    drops a header row whether or not it was skipped before. *)
Theorem skip_header_redundant MAX_ROWS column :
  List.filter looks_like_account (skip_header column)
    = List.filter looks_like_account column ∧
  prepare_accounts MAX_ROWS column
    = map normalize_separator
        (limit_rows MAX_ROWS (List.filter looks_like_account column)).
Proof.
  assert (Hfilter : List.filter looks_like_account (skip_header column)
                    = List.filter looks_like_account column).
  { destruct column as [|first rest]; [done|]. simpl.
    case_bool_decide as Hh; [|done].
    by rewrite (header_is_filtered first Hh). }
  split; [done|]. unfold prepare_accounts. by rewrite Hfilter.
Qed.

Lemma take_min_length {A} (l : list A) (n : nat) :
  take (Nat.min n (length l)) l = take n l.
Proof.
  destruct (Nat.le_gt_cases n (length l)).
  - by rewrite Nat.min_l.
  - rewrite Nat.min_r by lia. by rewrite !take_ge by lia.
Qed.

(** X6. The row limit of lines 68-69: [None] and [0] both keep every row;
    a positive limit keeps that many leading rows; a negative limit
    drops that many trailing rows. *)
Theorem limit_rows_cases accounts :
  limit_rows None accounts = accounts ∧
  limit_rows (Some 0) accounts = accounts ∧
  (∀ m, 0 < m → limit_rows (Some m) accounts = take (Z.to_nat m) accounts) ∧
  (∀ m, m < 0 →
     limit_rows (Some m) accounts
     = take (length accounts - Z.to_nat (- m)) accounts).
Proof.
  split_and!; [done|done| |].
  - intros m Hm. unfold limit_rows.
    destruct (Z.eqb_spec m 0); [lia|].
    unfold slice. rewrite !slice_index_nonneg by lia.
    simpl. rewrite drop_0, Nat.sub_0_r. apply take_min_length.
  - intros m Hm. unfold limit_rows.
    destruct (Z.eqb_spec m 0); [lia|].
    unfold slice. rewrite (slice_index_nonneg accounts 0) by lia.
    simpl. rewrite drop_0, Nat.sub_0_r. f_equal.
    unfold slice_index. destruct (Z.ltb_spec m 0); lia.
Qed.

Lemma list_filter_sublist {A} (p : A → bool) (l : list A) :
  sublist (List.filter p l) l.
Proof.
  induction l as [|x l IH]; simpl; [constructor|].
  destruct (p x); by constructor.
Qed.

Lemma skip_header_sublist column : sublist (skip_header column) column.
Proof.
  destruct column as [|first rest]; [done|]. simpl.
  case_bool_decide; [by apply sublist_cons | done].
Qed.

Lemma limit_rows_sublist MAX_ROWS accounts :
  sublist (limit_rows MAX_ROWS accounts) accounts.
Proof.
  destruct MAX_ROWS as [m|]; [|done]. unfold limit_rows.
  destruct (m =? 0); [done|]. unfold slice.
  etrans; [apply sublist_take | apply sublist_drop].
Qed.

Lemma visible_elem text c :
  c ∈ visible text ↔ c ∈ text ∧ isspace c = false.
Proof.
  unfold visible. rewrite !list_elem_of_In, filter_In.
  by rewrite negb_true_iff.
Qed.

Lemma normalize_separator_keeps text c :
  c ∈ text → isspace c = false → c ∉ separator_variants →
  c ∈ normalize_separator text.
Proof.
  intros Hc Hsp Hvar.
  assert (Hv : c ∈ visible (normalize_separator text)).
  { destruct (normalize_separator_content text) as [-> _].
    apply list_elem_of_fmap. exists c.
    split; [by rewrite to_hyphen_fixed | by apply visible_elem]. }
  by apply visible_elem in Hv as [? _].
Qed.

(** X7. The accounts that reach the dispatch are the normalized forms, in
    column order, of rows that passed the test of line 63; each of them is
    in normal form and still contains a hyphen or an underscore. *)
Theorem prepared_accounts_origin MAX_ROWS column :
  ∃ kept,
    sublist kept column ∧
    prepare_accounts MAX_ROWS column = map normalize_separator kept ∧
    Forall (fun raw => looks_like_account raw = true) kept ∧
    Forall (fun acc => normalized acc ∧ (HYPHEN ∈ acc ∨ UNDERSCORE ∈ acc))
           (prepare_accounts MAX_ROWS column).
Proof.
  set (passed := List.filter looks_like_account (skip_header column)).
  assert (Hkept : Forall (fun raw => looks_like_account raw = true)
                         (limit_rows MAX_ROWS passed)).
  { apply Forall_forall. intros raw Hraw.
    assert (Hin : raw ∈ passed)
      by (eapply elem_of_sublist; [done|apply limit_rows_sublist]).
    subst passed. by apply list_elem_of_In, filter_In in Hin as [_ ?]. }
  exists (limit_rows MAX_ROWS passed). split_and!; [|done|done|].
  - etrans; [apply limit_rows_sublist|].
    etrans; [apply list_filter_sublist | apply skip_header_sublist].
  - unfold prepare_accounts. fold passed.
    change (map normalize_separator ?l) with (normalize_separator <$> l).
    apply Forall_fmap. eapply Forall_impl; [exact Hkept|].
    intros raw Hraw. simpl. split; [apply normalize_separator_normalized|].
    unfold looks_like_account in Hraw.
    apply andb_prop in Hraw as [_ [Hh|Hu]%orb_prop].
    + left. apply bool_decide_eq_true in Hh.
      apply normalize_separator_keeps; [done|reflexivity|].
      unfold separator_variants, HYPHEN. intros Hv.
      repeat (apply elem_of_cons in Hv as [?|Hv]; [lia|]).
      by apply elem_of_nil in Hv.
    + right. apply bool_decide_eq_true in Hu.
      apply normalize_separator_keeps; [done|reflexivity|].
      unfold separator_variants, UNDERSCORE. intros Hv.
      repeat (apply elem_of_cons in Hv as [?|Hv]; [lia|]).
      by apply elem_of_nil in Hv.
Qed.

(** ** gemini_service.py: more on the retry routine *)

Lemma retry_loop_stops cfg accounts svc :
  ∀ (m i : nat),
    Z.of_nat (i + S m) = MAX_RETRIES cfg →
    ∃ j : nat,
      (j ≤ m)%nat ∧
      retry_loop cfg accounts svc (Z.of_nat <$> seq i (S m))
      = (Ok (attempt_result accounts (svc (Z.of_nat (i + j)))),
         failed_attempts cfg (Z.of_nat <$> seq i j)
           ++ [EvCall (Z.of_nat (i + j))]) ∧
      (∀ k : nat, (i ≤ k < i + j)%nat → raises (svc (Z.of_nat k)) = true) ∧
      ((j < m)%nat → raises (svc (Z.of_nat (i + j))) = false).
Proof.
  induction m as [|m IH]; intros i Hmax.
  - exists O. rewrite Nat.add_0_r. unfold attempt_result.
    split_and!; [done| |intros; lia|intros; lia].
    simpl seq. rewrite fmap_cons.
    destruct (_call_api accounts (svc (Z.of_nat i))) as [rs|e] eqn:Hcall.
    + by erewrite retry_loop_return.
    + by erewrite retry_loop_give_up by (done || lia).
  - destruct (_call_api accounts (svc (Z.of_nat i))) as [rs|e] eqn:Hcall.
    + exists O. rewrite Nat.add_0_r. unfold attempt_result. rewrite Hcall.
      split_and!; [lia| |intros; lia|].
      * change (seq i (S (S m))) with (i :: seq (S i) (S m)).
        rewrite fmap_cons. by erewrite retry_loop_return.
      * intros _. destruct (svc (Z.of_nat i)); [done|done].
    + destruct (IH (S i)) as (j & Hj & Hloop & Hfail & Hstop); [lia|].
      exists (S j).
      replace (i + S j)%nat with (S i + j)%nat by lia.
      split_and!; [lia| | |intros; apply Hstop; lia].
      * change (seq i (S (S m))) with (i :: seq (S i) (S m)).
        rewrite fmap_cons.
        erewrite retry_loop_retry by (done || lia).
        by rewrite Hloop.
      * intros k Hk. destruct (decide (k = i)) as [->|Hne].
        -- destruct (svc (Z.of_nat i)) as [msg|[[]|]]; try done.
           simpl in Hcall. by destruct (length l =? length accounts)%nat.
        -- apply Hfail. lia.
Qed.


Lemma retry_cases cfg accounts svc :
  (MAX_RETRIES cfg ≤ 0 ∧
   _call_api_with_retry cfg accounts svc = (Ok (none_list accounts), [])) ∨
  (∃ k : nat,
     Z.of_nat k < MAX_RETRIES cfg ∧
     _call_api_with_retry cfg accounts svc
     = (Ok (attempt_result accounts (svc (Z.of_nat k))),
        failed_attempts cfg (range1 (Z.of_nat k))
          ++ [EvCall (Z.of_nat k)])).
Proof.
  destruct (Z.le_gt_cases (MAX_RETRIES cfg) 0) as [Hle|Hgt].
  - left. split; [done|]. unfold _call_api_with_retry, range1.
    by replace (Z.to_nat (MAX_RETRIES cfg)) with O by lia.
  - right.
    destruct (retry_loop_stops cfg accounts svc
                (Z.to_nat (MAX_RETRIES cfg - 1)) 0)
      as (j & Hj & Hloop & _); [lia|].
    exists j. simpl in Hloop. split; [lia|].
    unfold _call_api_with_retry, range1.
    replace (Z.to_nat (MAX_RETRIES cfg))
      with (S (Z.to_nat (MAX_RETRIES cfg - 1))) by lia.
    by rewrite Nat2Z.id.
Qed.

Lemma failed_attempts_app cfg l1 l2 :
  failed_attempts cfg (l1 ++ l2)
  = failed_attempts cfg l1 ++ failed_attempts cfg l2.
Proof. unfold failed_attempts. apply flat_map_app. Qed.



Lemma foldr_Qplus_app (l1 l2 : list Q) :
  (foldr Qplus 0 (l1 ++ l2) == foldr Qplus 0 l1 + foldr Qplus 0 l2)%Q.
Proof.
  induction l1 as [|x l1 IH]; simpl; [ring|]. rewrite IH. ring.
Qed.

Lemma range1_snoc (n : nat) :
  range1 (Z.of_nat (S n)) = range1 (Z.of_nat n) ++ [Z.of_nat n].
Proof.
  unfold range1. rewrite !Nat2Z.id, seq_S. by rewrite map_app.
Qed.

(** The sleeps after [k] failed attempts add up to
    [RETRY_DELAY * (2^k - 1)]. *)
Lemma total_backoff cfg (k : nat) :
  (foldr Qplus 0 (backoff cfg <$> range1 (Z.of_nat k))
   == RETRY_DELAY cfg * inject_Z (2 ^ Z.of_nat k - 1))%Q.
Proof.
  induction k as [|k IH].
  - change (inject_Z (2 ^ Z.of_nat 0 - 1)) with 0%Q. simpl. ring.
  - rewrite range1_snoc, fmap_app, foldr_Qplus_app, IH. simpl.
    unfold backoff.
    replace (2 ^ Z.of_nat (S k) - 1)
      with ((2 ^ Z.of_nat k - 1) + 2 ^ Z.of_nat k)
      by (rewrite Nat2Z.inj_succ, Z.pow_succ_r by lia; lia).
    rewrite inject_Z_plus. ring.
Qed.

(** X10. Whatever the service does, the backoff sleeps of one batch add
    up to at most [RETRY_DELAY * (2^(MAX_RETRIES-1) - 1)] seconds (30
    seconds with the values of config.py). *)
Theorem total_delay_bounded cfg accounts svc :
  0 < MAX_RETRIES cfg →
  (0 <= RETRY_DELAY cfg)%Q →
  (total_delay (_call_api_with_retry cfg accounts svc).2
   <= RETRY_DELAY cfg * inject_Z (2 ^ (MAX_RETRIES cfg - 1) - 1))%Q.
Proof.
  intros Hmax Hdelay.
  destruct (retry_cases cfg accounts svc) as [[Hle _]|(k & Hk & ->)]; [lia|].
  unfold total_delay. simpl.
  rewrite delays_app, delays_failed_attempts. simpl. rewrite app_nil_r.
  rewrite total_backoff.
  assert (Hpow : 2 ^ Z.of_nat k ≤ 2 ^ (MAX_RETRIES cfg - 1))
    by (apply Z.pow_le_mono_r; lia).
  destruct (RETRY_DELAY cfg) as [num den].
  unfold Qle, Qmult, inject_Z in *. simpl in *. nia.
Qed.

(** X11. A batch result is never made up: [clean_batch] returns either
    [None] for every account, or, unchanged, a list of the length of the
    batch that the service delivered on one of the [MAX_RETRIES]
    attempts. *)
Theorem cleaned_verbatim cfg svc batch :
  cleaned cfg svc batch = none_list batch ∨
  ∃ k,
    0 ≤ k < MAX_RETRIES cfg ∧
    svc k = ApiText (Some (JArr (cleaned cfg svc batch))) ∧
    length (cleaned cfg svc batch) = length batch.
Proof.
  destruct (clean_batch_total cfg svc batch) as (body & _ & Hretry & Hlen & _).
  destruct (retry_cases cfg batch svc) as [[_ Hnone]|(k & Hk & Hstop)].
  - left. rewrite Hnone in Hretry. by injection Hretry as <- _.
  - rewrite Hstop in Hretry. injection Hretry as Hres _.
    unfold attempt_result, _call_api in Hres.
    destruct (svc (Z.of_nat k)) as [msg|[[]|]] eqn:Hsvc; try by left.
    destruct (length l =? length batch)%nat eqn:Hl; [|by left].
    right. exists (Z.of_nat k). rewrite Hsvc, <- Hres.
    split_and!; [lia|lia|done|by apply Nat.eqb_eq].
Qed.

(** ** batch_clean.py: more on partition and aggregation *)

(** X12. With a positive batch size there are [ceil(n / BATCH_SIZE)]
    batches, and position [j] of batch [i] holds the record with global
    index [i * BATCH_SIZE + j]. *)
Theorem partition_global_index cfg accounts batches :
  0 < BATCH_SIZE cfg →
  partition cfg accounts = Ok batches →
  Z.of_nat (length batches)
    = (Z.of_nat (length accounts) + BATCH_SIZE cfg - 1) / BATCH_SIZE cfg ∧
  ∀ i j : nat,
    Z.of_nat j < BATCH_SIZE cfg →
    (batches !! i ≫= fun batch => batch !! j)
    = accounts !! (i * Z.to_nat (BATCH_SIZE cfg) + j)%nat.
Proof.
  intros Hb Hpart. rewrite partition_windows in Hpart by done.
  injection Hpart as <-.
  set (n := Z.of_nat (length accounts)).
  set (c := range_length 0 n (BATCH_SIZE cfg)).
  assert (Hc : n = 0 ∧ c = 0 ∨
               0 < n ∧ 0 < c ∧ (c - 1) * BATCH_SIZE cfg ≤ n - 1
                 ∧ n - 1 < c * BATCH_SIZE cfg).
  { destruct (Z.eq_dec n 0) as [Hn|Hn].
    - left. split; [done|]. subst c. rewrite Hn.
      by apply range_length_empty.
    - right. split; [lia|]. apply range_length_positive; lia. }
  split.
  - rewrite length_map, length_seq.
    destruct Hc as [[Hn Hc]|(Hn & Hc & Hlo & Hhi)].
    + rewrite Hc, Hn. simpl. symmetry. apply Z.div_small. lia.
    + rewrite Z2Nat.id by lia.
      apply (Z.div_unique_pos _ _ _ (n + BATCH_SIZE cfg - 1
                                     - BATCH_SIZE cfg * c)); lia.
  - intros i j Hj.
    change (map ?f ?l) with (f <$> l). rewrite list_lookup_fmap.
    destruct (seq 0 (Z.to_nat c) !! i) as [k|] eqn:Hk; simpl.
    + apply lookup_seq in Hk as [-> Hlt]. simpl.
      rewrite lookup_take_lt by lia. by rewrite lookup_drop.
    + apply lookup_ge_None in Hk. rewrite length_seq in Hk.
      symmetry. apply lookup_ge_None. subst n. nia.
Qed.

Lemma cleaned_all_raise cfg svc batch :
  (∀ k, 0 ≤ k < MAX_RETRIES cfg → raises (svc k) = true) →
  cleaned cfg svc batch = none_list batch.
Proof.
  intros Hfail.
  destruct (clean_batch_total cfg svc batch) as (body & _ & Hretry & _).
  rewrite retry_all_raise in Hretry by done. by injection Hretry as <- _.
Qed.

Lemma rows_of_nones accounts rs :
  forallb is_none rs = true →
  length rs = length accounts →
  zip_with row_of accounts rs = placeholder <$> accounts ∧
  failures_of accounts rs = accounts.
Proof.
  unfold failures_of. revert rs.
  induction accounts as [|acc accounts IH]; intros [|res rs] Hnone Hlen;
    try done.
  simpl in Hnone, Hlen. apply andb_prop in Hnone as [Hres Hnone].
  destruct res; try done.
  destruct (IH rs Hnone ltac:(lia)) as [Hrows Hfailed].
  change (zip (acc :: accounts) (JNull :: rs))
    with ((acc, JNull) :: zip accounts rs).
  simpl. rewrite Hrows. split; [done|]. f_equal. exact Hfailed.
Qed.

(** X13. With a positive batch size, if every attempt of every batch
    raises (or no attempt is configured at all), the run still completes:
    every row is the placeholder of its record, and the list of failed
    accounts is the input, each record once and in order. *)
Theorem service_down_all_failed cfg svc accounts :
  0 < BATCH_SIZE cfg →
  (∀ (i : nat) k, 0 ≤ k < MAX_RETRIES cfg → raises (svc i k) = true) →
  main cfg svc accounts = Ok (placeholder <$> accounts, accounts).
Proof.
  intros Hb Hdown.
  destruct (partition_cover cfg accounts Hb) as (batches & Hpart & Hcat).
  rewrite (main_aggregates cfg svc accounts batches) by done.
  assert (Hnone : forallb is_none (record_results cfg svc batches) = true).
  { apply forallb_concat_imap. intros i batch _.
    rewrite cleaned_all_raise by auto.
    unfold none_list. by induction (length batch). }
  rewrite (aggregate_outcomes cfg svc batches).
  - pose proof (length_record_results cfg svc batches) as Hlen.
    destruct (rows_of_nones (concat batches) _ Hnone Hlen) as [-> ->].
    by rewrite Hcat.
  - intros i batch _. rewrite cleaned_all_raise by auto.
    apply none_list_typed.
  - done.
Qed.

Lemma original_account_placeholder acc :
  original_account (placeholder acc) = Some (JStr acc).
Proof. simpl. apply lookup_singleton_eq. Qed.

Lemma original_account_row_of acc res :
  original_account (row_of acc res) = Some (JStr acc).
Proof.
  destruct res; try apply original_account_placeholder. simpl.
  destruct (size d =? 0)%nat; simpl;
    [apply lookup_singleton_eq | apply lookup_insert_eq].
Qed.

Lemma original_accounts_of_rows accounts rs :
  length rs = length accounts →
  original_account <$> zip_with row_of accounts rs
  = (fun acc => Some (JStr acc)) <$> accounts.
Proof.
  revert rs. induction accounts as [|acc accounts IH]; intros [|res rs] Hlen;
    try done.
  simpl. rewrite original_account_row_of. f_equal. apply IH.
  simpl in Hlen. lia.
Qed.

(** X14. With a positive batch size and results of the declared type, the
    ["原始账户名"] column of the output is the input, record for record:
    whatever the service stored under that key is overwritten with the
    record itself. *)
Theorem original_account_column cfg svc accounts :
  0 < BATCH_SIZE cfg →
  (∀ i k, well_typed (svc i k) = true) →
  ∃ all_results failed_accounts,
    main cfg svc accounts = Ok (all_results, failed_accounts) ∧
    original_account <$> all_results
    = (fun acc => Some (JStr acc)) <$> accounts.
Proof.
  intros Hb Hty.
  destruct (partition_cover cfg accounts Hb) as (batches & Hpart & Hcat).
  eexists _, _.
  rewrite (main_aggregates cfg svc accounts batches) by done.
  rewrite (aggregate_outcomes cfg svc batches);
    [|intros; by apply cleaned_typed|done].
  split; [done|]. rewrite Hcat.
  apply original_accounts_of_rows.
  by rewrite length_record_results, Hcat.
Qed.

Lemma failures_accounting accounts rs :
  length rs = length accounts →
  sublist (failures_of accounts rs) accounts ∧
  length accounts = (length (failures_of accounts rs) + count truthy rs)%nat.
Proof.
  unfold failures_of. revert rs.
  induction accounts as [|acc accounts IH]; intros [|res rs] Hlen; try done.
  simpl in Hlen.
  destruct (IH rs ltac:(lia)) as [Hsub Hcount].
  change (zip (acc :: accounts) (res :: rs))
    with ((acc, res) :: zip accounts rs).
  simpl. destruct (truthy res); simpl.
  - split; [by apply sublist_cons|].
    rewrite Nat.add_succ_r. f_equal. exact Hcount.
  - split; [by apply sublist_skip|]. f_equal. exact Hcount.
Qed.

(** X15. With a positive batch size and results of the declared type, the
    failed accounts are a subsequence of the input, and the number of
    successes printed at line 117, rows minus failed accounts, is the
    number of truthy results. *)
Theorem manifest_accounting cfg svc accounts batches :
  0 < BATCH_SIZE cfg →
  (∀ i k, well_typed (svc i k) = true) →
  partition cfg accounts = Ok batches →
  ∃ all_results failed_accounts,
    main cfg svc accounts = Ok (all_results, failed_accounts) ∧
    sublist failed_accounts accounts ∧
    length all_results
    = (length failed_accounts
       + count truthy (record_results cfg svc batches))%nat.
Proof.
  intros Hb Hty Hpart.
  destruct (partition_cover cfg accounts Hb) as (batches' & Hpart' & Hcat).
  rewrite Hpart in Hpart'. injection Hpart' as <-.
  eexists _, _.
  rewrite (main_aggregates cfg svc accounts batches) by done.
  rewrite (aggregate_outcomes cfg svc batches);
    [|intros; by apply cleaned_typed|done].
  split; [done|]. rewrite Hcat.
  pose proof (length_record_results cfg svc batches) as Hlen.
  rewrite Hcat in Hlen.
  destruct (failures_accounting accounts _ Hlen) as [Hsub Hcount].
  split; [done|]. rewrite length_zip_with. lia.
Qed.

Lemma merge_record_raises st p :
  ill_typed p.2 = true → merge_record st p = Raise TypeError.
Proof.
  destruct st as [all_results failed_accounts], p as [acc res]. simpl.
  unfold ill_typed. intros [Htruthy Hdict]%andb_prop.
  rewrite Htruthy. by destruct res.
Qed.

Lemma merge_record_only_type_error st p e :
  merge_record st p = Raise e → e = TypeError.
Proof.
  destruct st as [all_results failed_accounts], p as [acc res]. simpl.
  destruct (truthy res); [|done].
  destruct res; simpl; intros Heq; by inversion Heq.
Qed.

Lemma merge_records_raise pairs :
  Exists (fun p : string * json => ill_typed p.2 = true) pairs →
  ∀ st, foldM merge_record st pairs = Raise TypeError.
Proof.
  induction 1 as [p pairs Hp|p pairs Hex IH]; intros st; simpl.
  - by rewrite merge_record_raises.
  - destruct (merge_record st p) as [st'|e] eqn:Hm; simpl; [apply IH|].
    by rewrite (merge_record_only_type_error _ _ _ Hm).
Qed.

(** X16. The declared result type is not checked: with a positive batch
    size and at least one attempt, if the first answer for some batch has
    the length of the batch and holds an element that is truthy but not a
    dict, the item assignment of line 110 raises [TypeError] and the run
    ends without any output. *)
Theorem ill_typed_result_aborts cfg svc accounts batches (i : nat) batch l :
  0 < BATCH_SIZE cfg →
  0 < MAX_RETRIES cfg →
  partition cfg accounts = Ok batches →
  batches !! i = Some batch →
  svc i 0 = ApiText (Some (JArr l)) →
  length l = length batch →
  existsb ill_typed l = true →
  main cfg svc accounts = Raise TypeError.
Proof.
  intros Hb Hmax Hpart Hi Hsvc Hlen Hill.
  rewrite (main_aggregates cfg svc accounts batches) by done.
  unfold aggregate. rewrite (sorted_outcomes cfg svc batches) by done.
  unfold outcomes.
  rewrite (merge_outcomes (fun i batch => cleaned cfg (svc i) batch) batches id).
  apply merge_records_raise.
  assert (Hclean : cleaned cfg (svc i) batch = l).
  { apply cleaned_first_attempt; [done|]. rewrite Hsvc. simpl.
    by rewrite (proj2 (Nat.eqb_eq _ _) Hlen). }
  apply existsb_exists in Hill as (res & Hres & Hbad).
  apply list_elem_of_In, list_elem_of_lookup in Hres as [j Hj].
  destruct (batch !! j) as [acc|] eqn:Hacc.
  2:{ apply lookup_ge_None in Hacc. apply lookup_lt_Some in Hj. lia. }
  apply Exists_exists. exists (acc, res). split; [|done].
  apply list_elem_of_In, in_concat. exists (zip batch l).
  rewrite <- !list_elem_of_In. split.
  - apply list_elem_of_lookup. exists i.
    rewrite list_lookup_imap, Hi. simpl. by rewrite Hclean.
  - apply list_elem_of_lookup. exists j.
    rewrite lookup_zip_with, Hacc. simpl. by rewrite Hj.
Qed.

Lemma foldM_invariant {S A} (I : S → Prop) (G : A → Prop)
    (f : S → A → result S) :
  (∀ s x s', I s → G x → f s x = Ok s' → I s') →
  ∀ l s s', Forall G l → I s → foldM f s l = Ok s' → I s'.
Proof.
  intros Hstep. induction l as [|x l IH]; intros s s' Hall Hs Hfold.
  - simpl in Hfold. by injection Hfold as <-.
  - apply Forall_cons in Hall as [Hx Hall]. simpl in Hfold.
    destruct (f s x) as [s1|e] eqn:Hf; [|done]. simpl in Hfold.
    eapply IH; [done| |done]. by eapply Hstep.
Qed.

Section AnyTuples.
Variable tuples : list batch_result.

Let from_tuples (acc : string) : Prop :=
  ∃ r, r ∈ tuples ∧ acc ∈ batch_records r.

Let tagged (row : json) : Prop :=
  ∃ acc, original_account row = Some (JStr acc) ∧ from_tuples acc.

Let accounted (st : aggregation) : Prop :=
  Forall tagged st.1 ∧ Forall from_tuples st.2 ∧
  (length st.2 ≤ length st.1)%nat.

Lemma fail_record_accounted st acc :
  accounted st → from_tuples acc → accounted (fail_record st acc).
Proof.
  destruct st as [all_results failed_accounts].
  intros (Hrows & Hfailed & Hlen) Hacc. unfold accounted. simpl in *.
  rewrite !Forall_app, !Forall_singleton, !length_app. simpl.
  split_and!; [done| |done|done|lia].
  exists acc. split; [apply original_account_placeholder | done].
Qed.

Lemma merge_record_accounted st p st' :
  accounted st → from_tuples p.1 →
  merge_record st p = Ok st' → accounted st'.
Proof.
  destruct st as [all_results failed_accounts], p as [acc res].
  intros (Hrows & Hfailed & Hlen) Hacc. unfold accounted. simpl in *.
  destruct (truthy res).
  - destruct res; simpl; try done. intros [= <-]. simpl.
    rewrite !Forall_app, !Forall_singleton, !length_app. simpl.
    split_and!; [done| |done|lia].
    exists acc. split; [apply lookup_insert_eq | done].
  - intros [= <-]. simpl.
    rewrite !Forall_app, !Forall_singleton, !length_app. simpl.
    split_and!; [done| |done|done|lia].
    exists acc. split; [apply original_account_placeholder | done].
Qed.

Lemma merge_batch_accounted st r st' :
  accounted st → r ∈ tuples →
  merge_batch st r = Ok st' → accounted st'.
Proof.
  destruct r as [[[index batch] results] error]. intros Hst Hr. simpl.
  assert (Hbatch : ∀ acc, acc ∈ batch → from_tuples acc).
  { intros acc Hacc. by exists (index, batch, results, error). }
  destruct (truthy_error error).
  - intros [= <-]. clear Hr. revert st Hst.
    induction batch as [|acc batch IH]; intros st Hst; [done|]. simpl.
    apply IH.
    + intros a Ha. apply Hbatch. by right.
    + apply fail_record_accounted; [done|]. apply Hbatch. by left.
  - destruct results as [rs|]; [|done].
    apply (foldM_invariant accounted (fun p => from_tuples p.1)).
    + intros s p s' Hs Hp. by apply merge_record_accounted.
    + apply Forall_forall. intros [acc res] Hp. simpl.
      apply Hbatch. by eapply elem_of_zip_l.
    + done.
Qed.
End AnyTuples.

(** X17. For any list of tuples, in any order and with any results or
    errors: when the aggregation returns, every row carries under
    ["原始账户名"] a record of one of the batches, every failed account is
    a record of one of the batches, and there are at most as many failed
    accounts as rows, so the success count of line 117 is not negative. *)
Theorem aggregate_any_tuples batch_results all_results failed_accounts :
  aggregate batch_results = Ok (all_results, failed_accounts) →
  Forall (fun row =>
            ∃ acc, original_account row = Some (JStr acc) ∧
                   ∃ r, r ∈ batch_results ∧ acc ∈ batch_records r)
         all_results ∧
  Forall (fun acc => ∃ r, r ∈ batch_results ∧ acc ∈ batch_records r)
         failed_accounts ∧
  (length failed_accounts ≤ length all_results)%nat.
Proof.
  unfold aggregate. intros Hagg.
  apply (foldM_invariant
           (fun st =>
              Forall (fun row =>
                        ∃ acc, original_account row = Some (JStr acc) ∧
                               ∃ r, r ∈ batch_results ∧ acc ∈ batch_records r)
                     st.1 ∧
              Forall (fun acc => ∃ r, r ∈ batch_results ∧ acc ∈ batch_records r)
                     st.2 ∧
              (length st.2 ≤ length st.1)%nat)
           (fun r => r ∈ batch_results)) in Hagg; [done|..].
  - intros s r s' Hs Hr. by apply merge_batch_accounted.
  - apply Forall_forall. intros r Hr. by rewrite sorted_perm in Hr.
  - simpl. split_and!; [constructor|constructor|done].
Qed.

(** ** gemini_service.py: more on the coroutines under the semaphore *)

(** X18. In every reachable state the semaphore counter lies between 0 and
    [MAX_CONCURRENT_REQUESTS], and the slots taken are exactly those of
    the batches inside [async with], whether they have a call in flight,
    sleep in backoff or are about to return. *)
Theorem semaphore_within_bounds cfg jobs s :
  0 ≤ MAX_CONCURRENT_REQUESTS cfg →
  reachable cfg jobs s →
  0 ≤ semaphore s ≤ MAX_CONCURRENT_REQUESTS cfg ∧
  Z.of_nat (count holds_slot (coroutines s))
    = MAX_CONCURRENT_REQUESTS cfg - semaphore s.
Proof.
  intros HC Hreach.
  destruct (reachable_accounted cfg jobs s HC Hreach) as [Hnonneg Hsum].
  lia.
Qed.

Lemma reachable_length cfg jobs s :
  reachable cfg jobs s → length (coroutines s) = length jobs.
Proof.
  unfold reachable. revert s.
  apply (rtc_ind_r (fun s => length (coroutines s) = length jobs)).
  - simpl. apply length_replicate.
  - intros s s' _ Hstep IH. destruct Hstep. simpl.
    by rewrite length_insert.
Qed.

(** A coroutine inside [async with] can always go on, and not by taking
    a slot. *)
Lemma holder_can_step cfg accounts svc t :
  holds_slot t = true →
  ∃ ev t', task_step cfg accounts svc t ev t' ∧ ev ≠ Some EvAcquire.
Proof.
  destruct t as [|[|attempt rest]|attempt rest|rest|results|results];
    try done; intros _.
  - eexists _, _. split; [apply T_exhausted | done].
  - eexists _, _. split; [apply T_call | done].
  - destruct (_call_api accounts (svc attempt)) as [rs|e] eqn:Hcall.
    + eexists _, _. split; [by apply T_return | done].
    + destruct (attempt <? MAX_RETRIES cfg - 1) eqn:Hlt.
      * eexists _, _. split; [by eapply T_retry | done].
      * eexists _, _. split; [by eapply T_give_up | done].
  - eexists _, _. split; [apply T_wake | done].
  - eexists _, _. split; [apply T_release | done].
Qed.

Lemma semaphore_step_free value ev :
  ev ≠ Some EvAcquire → ∃ value', semaphore_step value ev = Some value'.
Proof. destruct ev as [[]|]; try done; by eexists. Qed.

Lemma count_positive {A} (p : A → bool) (l : list A) :
  (0 < count p l)%nat → ∃ i x, l !! i = Some x ∧ p x = true.
Proof.
  induction l as [|x l IH]; simpl; [lia|].
  destruct (p x) eqn:Hp.
  - intros _. by exists O, x.
  - intros Hpos. destruct (IH Hpos) as (i & y & Hi & Hy). by exists (S i), y.
Qed.

(** X19. With at least one slot the run cannot get stuck: in every
    reachable state in which some batch has not returned yet, some
    coroutine can take a step. *)
Theorem no_deadlock cfg jobs s (i : nat) t :
  0 < MAX_CONCURRENT_REQUESTS cfg →
  reachable cfg jobs s →
  coroutines s !! i = Some t →
  is_done t = false →
  ∃ s', step cfg jobs s s'.
Proof.
  intros HC Hreach Hi Hrun.
  pose proof (reachable_length cfg jobs s Hreach) as Hlen.
  destruct (reachable_accounted cfg jobs s ltac:(lia) Hreach)
    as [Hnonneg Hsum].
  assert (Hholder : ∀ (j : nat) u,
            coroutines s !! j = Some u → holds_slot u = true →
            ∃ s', step cfg jobs s s').
  { intros j u Hj Hu.
    destruct (jobs !! j) as [[accounts svc]|] eqn:Hjob.
    2:{ apply lookup_ge_None in Hjob. apply lookup_lt_Some in Hj. lia. }
    destruct (holder_can_step cfg accounts svc u Hu) as (ev & u' & Hstep & Hev).
    destruct (semaphore_step_free (semaphore s) ev Hev) as [value' Hsem].
    eexists. by eapply Step. }
  destruct (holds_slot t) eqn:Ht; [by eapply Hholder|].
  destruct t; try done.
  destruct (Z.ltb_spec 0 (semaphore s)) as [Hfree|Hfull].
  - destruct (jobs !! i) as [[accounts svc]|] eqn:Hjob.
    2:{ apply lookup_ge_None in Hjob. apply lookup_lt_Some in Hi. lia. }
    eexists. eapply (Step cfg jobs s i accounts svc Waiting (Some EvAcquire));
      [done|done|apply T_acquire|].
    simpl. by destruct (Z.ltb_spec 0 (semaphore s)); [|lia].
  - destruct (count_positive holds_slot (coroutines s)) as (j & u & Hj & Hu);
      [lia|].
    by eapply Hholder.
Qed.

Lemma task_step_fuel cfg accounts svc t ev t' :
  task_step cfg accounts svc t ev t' → (fuel cfg t' < fuel cfg t)%nat.
Proof.
  destruct 1; simpl; try lia.
  rewrite length_range1. lia.
Qed.

Lemma sum_list_insert (f : task → nat) l (i : nat) x y :
  l !! i = Some x →
  (sum_list (f <$> <[i := y]> l) + f x = sum_list (f <$> l) + f y)%nat.
Proof.
  revert i. induction l as [|z l IH]; intros [|i] Hi; simplify_eq/=.
  - lia.
  - specialize (IH i Hi). lia.
Qed.

Lemma step_fuel cfg jobs s s' :
  step cfg jobs s s' → (total_fuel cfg s' < total_fuel cfg s)%nat.
Proof.
  destruct 1 as [s i accounts svc t ev t' value' _ Ht Hstep _].
  unfold total_fuel. simpl.
  pose proof (sum_list_insert (fuel cfg) _ i t t' Ht).
  apply task_step_fuel in Hstep. lia.
Qed.

Lemma nsteps_fuel cfg jobs (n : nat) s s' :
  nsteps (step cfg jobs) n s s' →
  (n + total_fuel cfg s' ≤ total_fuel cfg s)%nat.
Proof.
  induction 1 as [|n s s1 s2 Hstep _ IH]; [lia|].
  apply step_fuel in Hstep. lia.
Qed.

(** X20. Every schedule is finite: from the start of the run the event
    loop takes at most [3 * MAX_RETRIES + 3] steps per batch, so as long
    as the service answers each call the run comes to an end. *)
Theorem run_terminates cfg jobs (n : nat) s :
  nsteps (step cfg jobs) n (initial cfg jobs) s →
  (n ≤ length jobs * (3 * Z.to_nat (MAX_RETRIES cfg) + 3))%nat.
Proof.
  intros Hrun. apply nsteps_fuel in Hrun.
  unfold total_fuel at 2 in Hrun. simpl in Hrun.
  rewrite fmap_replicate, sum_list_replicate in Hrun.
  unfold fuel in Hrun. lia.
Qed.

Lemma loop_result_cleaned cfg accounts svc :
  loop_result cfg accounts svc (range1 (MAX_RETRIES cfg))
  = cleaned cfg svc accounts.
Proof.
  destruct (clean_batch_total cfg svc accounts) as (body & _ & Hretry & _).
  unfold loop_result. unfold _call_api_with_retry in Hretry.
  by rewrite Hretry.
Qed.

(** A step does not change what the coroutine will return. *)
Lemma task_step_result cfg accounts svc t ev t' :
  task_step cfg accounts svc t ev t' →
  result_of cfg accounts svc t' = result_of cfg accounts svc t.
Proof.
  destruct 1 as [| |attempt rest|attempt rest results Hcall
                 |attempt rest e Hcall Hlt|attempt rest e Hcall Hge| |];
    simpl; try done.
  - apply loop_result_cleaned.
  - unfold loop_result. by erewrite retry_loop_return.
  - unfold loop_result. apply Z.ltb_lt in Hlt.
    by erewrite (retry_loop_retry _ _ _ attempt).
  - unfold loop_result. apply Z.ltb_ge in Hge.
    by erewrite retry_loop_give_up.
Qed.

(** X21. The result of a batch does not depend on the schedule: in every
    reachable state, a coroutine that has returned holds exactly what
    [clean_batch] returns for its batch. *)
Theorem result_independent_of_schedule cfg jobs s (i : nat)
    accounts svc results :
  reachable cfg jobs s →
  jobs !! i = Some (accounts, svc) →
  coroutines s !! i = Some (Done results) →
  results = cleaned cfg svc accounts.
Proof.
  intros Hreach Hjob Hi.
  enough (Hinv : ∀ t, coroutines s !! i = Some t →
                      result_of cfg accounts svc t = cleaned cfg svc accounts)
    by exact (Hinv _ Hi).
  clear Hi results. revert s Hreach. unfold reachable.
  apply (rtc_ind_r (fun s => ∀ t, coroutines s !! i = Some t →
           result_of cfg accounts svc t = cleaned cfg svc accounts)).
  - intros t Ht. simpl in Ht.
    apply lookup_replicate in Ht as [-> _]. done.
  - intros s s' _ Hstep IH t Ht.
    destruct Hstep as [s j accounts' svc' u ev u' value' Hjob' Hu Hstep _].
    simpl in Ht. destruct (decide (j = i)) as [->|Hne].
    + rewrite list_lookup_insert_eq in Ht by by eapply lookup_lt_Some.
      injection Ht as <-. rewrite Hjob in Hjob'. injection Hjob' as <- <-.
      rewrite (task_step_result _ _ _ _ _ _ Hstep). by apply IH.
    + rewrite list_lookup_insert_ne in Ht by done. by apply IH.
Qed.

(** ** The further theorems at sample inputs *)

Lemma normalize_separator_spacing_witness :
  (SPACE ∉ separator_variants) ∧
  (isspace SPACE = true →
   SPACE = SPACE ∧
   ∃ (j : nat) a b,
     2%nat = S j ∧
     normalize_separator untidy_text !! j = Some a ∧ isspace a = false ∧
     normalize_separator untidy_text !! 3%nat = Some b ∧ isspace b = false).
Proof.
  apply (normalize_separator_spacing untidy_text 2 SPACE). reflexivity.
Defined.

Lemma limit_rows_cases_witness :
  limit_rows (Some 2) HEADER_NAMES = take 2 HEADER_NAMES.
Proof.
  destruct (limit_rows_cases HEADER_NAMES) as (_ & _ & Hpos & _).
  apply (Hpos 2). reflexivity.
Defined.


Lemma total_delay_bounded_witness :
  (total_delay (_call_api_with_retry config_py ["iaa-1226-收徒"] svc_down).2
   <= RETRY_DELAY config_py
      * inject_Z (2 ^ (MAX_RETRIES config_py - 1) - 1))%Q.
Proof.
  apply (total_delay_bounded config_py ["iaa-1226-收徒"] svc_down).
  - reflexivity.
  - vm_compute. discriminate.
Defined.

Lemma partition_global_index_witness :
  Z.of_nat (length scenario_batches)
    = (Z.of_nat (length three_records) + BATCH_SIZE batches_of_two - 1)
      / BATCH_SIZE batches_of_two ∧
  ∀ i j : nat,
    Z.of_nat j < BATCH_SIZE batches_of_two →
    (scenario_batches !! i ≫= fun batch => batch !! j)
    = three_records !! (i * Z.to_nat (BATCH_SIZE batches_of_two) + j)%nat.
Proof.
  apply (partition_global_index batches_of_two three_records scenario_batches);
    reflexivity.
Defined.

Lemma service_down_all_failed_witness :
  main batches_of_two (fun _ => svc_down) three_records
  = Ok (placeholder <$> three_records, three_records).
Proof.
  apply (service_down_all_failed batches_of_two (fun _ => svc_down)
           three_records).
  - reflexivity.
  - intros i k _. reflexivity.
Defined.

Lemma original_account_column_witness :
  ∃ all_results failed_accounts,
    main batches_of_two svc_scenario three_records
      = Ok (all_results, failed_accounts) ∧
    original_account <$> all_results
    = (fun acc => Some (JStr acc)) <$> three_records.
Proof.
  apply (original_account_column batches_of_two svc_scenario three_records).
  - reflexivity.
  - intros [|i] k; reflexivity.
Defined.

Lemma manifest_accounting_witness :
  ∃ all_results failed_accounts,
    main batches_of_two svc_scenario three_records
      = Ok (all_results, failed_accounts) ∧
    sublist failed_accounts three_records ∧
    length all_results
    = (length failed_accounts
       + count truthy
           (record_results batches_of_two svc_scenario scenario_batches))%nat.
Proof.
  apply (manifest_accounting batches_of_two svc_scenario three_records
           scenario_batches).
  - reflexivity.
  - intros [|i] k; reflexivity.
  - reflexivity.
Defined.

Lemma ill_typed_result_aborts_witness :
  main batches_of_two svc_ill_typed three_records = Raise TypeError.
Proof.
  apply (ill_typed_result_aborts batches_of_two svc_ill_typed three_records
           scenario_batches 0 ["iaa-1226-收徒"; "iap-0103-诺亚之影"]
           [JStr "收徒"; JNull]);
    reflexivity.
Defined.

Lemma aggregate_any_tuples_witness :
  Forall (fun row =>
            ∃ acc, original_account row = Some (JStr acc) ∧
                   ∃ r, r ∈ scenario_done ∧ acc ∈ batch_records r)
         scenario_rows ∧
  Forall (fun acc => ∃ r, r ∈ scenario_done ∧ acc ∈ batch_records r)
         ["iap-0103-诺亚之影"; "iaa-0121-不速之客"] ∧
  (length ["iap-0103-诺亚之影"; "iaa-0121-不速之客"]
   ≤ length scenario_rows)%nat.
Proof.
  apply (aggregate_any_tuples scenario_done scenario_rows
           ["iap-0103-诺亚之影"; "iaa-0121-不速之客"]).
  vm_compute. reflexivity.
Defined.

Lemma semaphore_within_bounds_witness :
  0 ≤ semaphore one_in_flight ≤ MAX_CONCURRENT_REQUESTS one_slot ∧
  Z.of_nat (count holds_slot (coroutines one_in_flight))
    = MAX_CONCURRENT_REQUESTS one_slot - semaphore one_in_flight.
Proof.
  apply (semaphore_within_bounds one_slot two_jobs one_in_flight).
  - vm_compute. discriminate.
  - exact one_in_flight_reachable.
Defined.

Lemma no_deadlock_witness : ∃ s', step one_slot two_jobs one_in_flight s'.
Proof.
  apply (no_deadlock one_slot two_jobs one_in_flight 1 Waiting).
  - reflexivity.
  - exact one_in_flight_reachable.
  - reflexivity.
  - reflexivity.
Defined.

Lemma one_in_flight_in_two_steps :
  nsteps (step one_slot two_jobs) 2 (initial one_slot two_jobs) one_in_flight.
Proof.
  eapply nsteps_l.
  { apply (Step one_slot two_jobs (initial one_slot two_jobs) 0
             ["iaa-1226-收徒"] svc_down Waiting (Some EvAcquire)
             (Holding (range1 (MAX_RETRIES one_slot))) 0);
      [reflexivity | reflexivity | constructor | reflexivity]. }
  eapply nsteps_l; [|apply nsteps_O].
  apply (Step one_slot two_jobs
           (System 0 [Holding (range1 (MAX_RETRIES one_slot)); Waiting]) 0
           ["iaa-1226-收徒"] svc_down
           (Holding (0 :: [1; 2; 3; 4])) (Some (EvCall 0))
           (Calling 0 [1; 2; 3; 4]) 0);
    [reflexivity | reflexivity | constructor | reflexivity].
Defined.

Lemma run_terminates_witness :
  (2 ≤ length two_jobs * (3 * Z.to_nat (MAX_RETRIES one_slot) + 3))%nat.
Proof.
  apply (run_terminates one_slot two_jobs 2 one_in_flight).
  exact one_in_flight_in_two_steps.
Defined.

Lemma one_returned_reachable : reachable one_slot one_job one_returned.
Proof.
  unfold reachable.
  eapply rtc_l.
  { apply (Step one_slot one_job (initial one_slot one_job) 0
             ["iaa-1226-收徒"] (svc_answers [sample_row])
             Waiting (Some EvAcquire)
             (Holding (range1 (MAX_RETRIES one_slot))) 0);
      [reflexivity | reflexivity | constructor | reflexivity]. }
  eapply rtc_l.
  { apply (Step one_slot one_job
             (System 0 [Holding (range1 (MAX_RETRIES one_slot))]) 0
             ["iaa-1226-收徒"] (svc_answers [sample_row])
             (Holding (0 :: [1; 2; 3; 4])) (Some (EvCall 0))
             (Calling 0 [1; 2; 3; 4]) 0);
      [reflexivity | reflexivity | constructor | reflexivity]. }
  eapply rtc_l.
  { apply (Step one_slot one_job (System 0 [Calling 0 [1; 2; 3; 4]]) 0
             ["iaa-1226-收徒"] (svc_answers [sample_row])
             (Calling 0 [1; 2; 3; 4]) None (Returning [sample_row]) 0);
      [reflexivity | reflexivity | by constructor | reflexivity]. }
  eapply rtc_l; [|apply rtc_refl].
  apply (Step one_slot one_job (System 0 [Returning [sample_row]]) 0
           ["iaa-1226-收徒"] (svc_answers [sample_row])
           (Returning [sample_row]) (Some EvRelease) (Done [sample_row]) 1);
    [reflexivity | reflexivity | constructor | reflexivity].
Defined.

Lemma result_independent_of_schedule_witness :
  [sample_row]
  = cleaned one_slot (svc_answers [sample_row]) ["iaa-1226-收徒"].
Proof.
  apply (result_independent_of_schedule one_slot one_job one_returned 0
           ["iaa-1226-收徒"] (svc_answers [sample_row]) [sample_row]).
  - exact one_returned_reachable.
  - reflexivity.
  - reflexivity.
Defined.
